(** * Belts: flow with lower bounds and node capacities

    A shallow embedding of [belts/main.py]: the construction of the
    transformed max-flow graph ([build_transformed_graph]), the two result
    interpreters ([format_success], [format_infeasible]) and the orchestrator
    ([solve_belts]).

    Modelling choices.
    - Numbers are exact rationals ([Q]); [float('inf')] is the extra
      capacity [Unbounded].  Rounding is not modelled.
    - A Python [dict] that the code iterates is an insertion-ordered
      association list with unique keys ([dict_set] updates in place or
      appends); a [dict] that is only looked up is a [gmap].
    - A Python [set] is a [gset]; iterating a set visits its elements in an
      order the language does not fix, which is the parameter [set_order].
    - [networkx] is outside the program: [nx.maximum_flow] and
      [nx.minimum_cut] are calls to an oracle, and [solve_belts] is a
      program ([prog]) that may perform them.
    - The wrapper [main], which reads JSON and prints the result, is not
      embedded: an instance is a parsed and well-typed value. *)

From Stdlib Require Import QArith Qabs Lqa.
From stdpp Require Import gmap strings list fin_maps sorting.

Local Open Scope Q_scope.

(** ** Numbers *)

Definition TOLERANCE : Q := 1 # 1000000000.

(** A capacity is a rational or [float('inf')]. *)
Inductive capacity : Type :=
| Finite (q : Q)
| Unbounded.

(** [c < q] for a capacity [c] and a rational [q]. *)
Definition cap_lt (c : capacity) (q : Q) : bool :=
  match c with
  | Finite x => if Qlt_le_dec x q then true else false
  | Unbounded => false
  end.

(** [c - q]. *)
Definition cap_sub (c : capacity) (q : Q) : capacity :=
  match c with
  | Finite x => Finite (x - q)
  | Unbounded => Unbounded
  end.

Definition Qgt_b (a b : Q) : bool := if Qlt_le_dec b a then true else false.
Definition Qlt_b (a b : Q) : bool := if Qlt_le_dec a b then true else false.

(** ** Insertion-ordered dictionaries *)

Section dict.
Context {V : Type}.

Fixpoint dict_get (k : string) (d : list (string * V)) : option V :=
  match d with
  | [] => None
  | (k', v) :: d' => if decide (k = k') then Some v else dict_get k d'
  end.

Fixpoint dict_set (k : string) (v : V) (d : list (string * V))
  : list (string * V) :=
  match d with
  | [] => [(k, v)]
  | (k', v') :: d' =>
      if decide (k = k') then (k, v) :: d' else (k', v') :: dict_set k v d'
  end.

Definition dict_has (k : string) (d : list (string * V)) : bool :=
  match dict_get k d with Some _ => true | None => false end.
End dict.

(** ** Input *)

Record edge : Type := {
  e_from : string;
  e_to : string;
  e_lower : option Q;   (* absent: 0.0 *)
  e_upper : option Q    (* absent: float('inf') *)
}.

Record instance : Type := {
  sources : list (string * Q);
  sink : option string;
  edges : list edge;
  node_caps : list (string * Q)
}.

Definition lower_of (e : edge) : Q := default 0 (e_lower e).
Definition upper_of (e : edge) : capacity :=
  match e_upper e with Some h => Finite h | None => Unbounded end.

(** ** The graph of [networkx]

    [nx.DiGraph] keeps its nodes in insertion order and, for each node, its
    successors in insertion order with the edge attribute [capacity]. *)

Definition DiGraph : Type := list (string * list (string * capacity)).

Definition add_node (n : string) (G : DiGraph) : DiGraph :=
  if dict_has n G then G else G ++ [(n, [])].

Definition add_edge (u v : string) (c : capacity) (G : DiGraph) : DiGraph :=
  let G1 := add_node v (add_node u G) in
  match dict_get u G1 with
  | Some succ => dict_set u (dict_set v c succ) G1
  | None => G1
  end.

Definition edge_capacity (G : DiGraph) (u v : string) : option capacity :=
  match dict_get u G with
  | Some succ => dict_get v succ
  | None => None
  end.

(** All edges of the graph, as [nx] enumerates them. *)
Definition graph_edges (G : DiGraph) : list (string * string * capacity) :=
  concat (map (λ '(u, succ), map (λ '(v, c), (u, v, c)) succ) G).

Definition s_super : string := "s_super"%string.
Definition t_super : string := "t_super"%string.

(** ** Iteration order of sets *)

Record set_order : Type := {
  iter :> gset string → list string;
  iter_perm : ∀ S, iter S ≡ₚ elements S
}.

Definition elements_order : set_order :=
  {| iter := elements; iter_perm := λ S, reflexivity (elements S) |}.

(** ** Exceptions and results *)

Inductive exn : Type :=
| NoSink                                           (* ValueError *)
| BadBounds (u v : string) (hi : capacity) (lo : Q) (* ValueError *)
| KeyError (k : string).

Inductive message : Type :=
| FailedToBuild (e : exn)
| FlowUnbounded
| MaxFlowFailed.

Record flow_entry : Type := {
  f_from : string;
  f_to : string;
  f_flow : Q
}.

Record certificate : Type := {
  cut_reachable : list string;
  demand_balance : Q;
  tight_nodes : list string;
  tight_edges : list (string * string)
}.

Inductive result : Type :=
| Ok (max_flow_per_min : Q) (flows : list flow_entry)
| Infeasible (c : certificate)
| Error (m : message).

Inductive status : Type := StatusOk | StatusInfeasible | StatusError.

Definition status_of (r : result) : status :=
  match r with
  | Ok _ _ => StatusOk
  | Infeasible _ => StatusInfeasible
  | Error _ => StatusError
  end.

(** ** Bookkeeping of the builder *)

(** One entry of [original_edges]: [((u, v), (u_mapped, v_mapped), lo)]. *)
Record orig_edge : Type := {
  oe_orig : string * string;
  oe_mapped : string * string;
  oe_lo : Q
}.

Record build_data : Type := {
  total_expected_flow : Q;
  total_supply : Q;
  original_edges : list orig_edge;
  split_nodes : list (string * (string * string));
  node_map : gmap string string
}.

(** ** GraphBuilder: [build_transformed_graph] *)

(** [if not sink]: the key is absent, [null], or the empty string. *)
Definition sink_of (data : instance) : option string :=
  match sink data with
  | Some s => if decide (s = EmptyString) then None else Some s
  | None => None
  end.

(** [all_nodes], lines 84-88. *)
Definition all_nodes_of (data : instance) (snk : string) : gset string :=
  let s0 : gset string := list_to_set (sources data).*1 ∪ {[snk]} in
  let s1 := foldl (λ s e, s ∪ {[e_from e]} ∪ {[e_to e]}) s0 (edges data) in
  s1 ∪ list_to_set (node_caps data).*1.

(** [for n in all_nodes: mapped_in[n] = n; mapped_out[n] = n] and the
    comprehension [{n: n for n in all_nodes}]. *)
Definition identity_map (ns : list string) : gmap string string :=
  foldl (λ m n, <[n := n]> m) ∅ ns.

Definition v_in_of (n : string) : string := n +:+ "_in".
Definition v_out_of (n : string) : string := n +:+ "_out".

Record split_state : Type := {
  sp_G : DiGraph;
  sp_in : gmap string string;
  sp_out : gmap string string;
  sp_split : list (string * (string * string))
}.

(** One iteration of the loop over [node_caps.items()], lines 94-105. *)
Definition split_step (data : instance) (snk : string)
    (st : split_state) (nc : string * Q) : split_state :=
  let '(n, cap) := nc in
  if bool_decide (n = snk) || dict_has n (sources data) then st
  else
    let v_in := v_in_of n in
    let v_out := v_out_of n in
    {| sp_G := add_edge v_in v_out (Finite cap) (sp_G st);
       sp_in := <[n := v_in]> (sp_in st);
       sp_out := <[n := v_out]> (sp_out st);
       sp_split := dict_set n (v_in, v_out) (sp_split st) |}.

Record edge_state : Type := {
  es_G : DiGraph;
  es_orig : list orig_edge;
  es_lo : list (string * Q)      (* lo_demands *)
}.

(** [lo_demands[k] += x] on a [defaultdict(float)]. *)
Definition demand_add (k : string) (x : Q) (d : list (string * Q))
  : list (string * Q) :=
  dict_set k (default 0 (dict_get k d) + x) d.

(** The capacity given to the transformed edge, lines 117-119. *)
Definition edge_cap (e : edge) : capacity :=
  let cap := cap_sub (upper_of e) (lower_of e) in
  if cap_lt cap TOLERANCE then Finite 0 else cap.

(** The loop over [edges], lines 107-126. *)
Fixpoint edges_loop (m_in m_out : gmap string string) (es : list edge)
    (st : edge_state) : exn + edge_state :=
  match es with
  | [] => inr st
  | e :: es' =>
      let u := e_from e in
      let v := e_to e in
      let lo := lower_of e in
      let hi := upper_of e in
      if cap_lt hi (lo - TOLERANCE) then inl (BadBounds u v hi lo)
      else
        match m_out !! u with
        | None => inl (KeyError u)
        | Some u_mapped =>
            match m_in !! v with
            | None => inl (KeyError v)
            | Some v_mapped =>
                edges_loop m_in m_out es'
                  {| es_G := add_edge u_mapped v_mapped (edge_cap e) (es_G st);
                     es_orig := es_orig st ++
                       [ {| oe_orig := (u, v);
                            oe_mapped := (u_mapped, v_mapped);
                            oe_lo := lo |} ];
                     es_lo := demand_add v lo (demand_add u (- lo) (es_lo st)) |}
            end
        end
  end.

(** The loop over [lo_demands.items()], lines 132-137; the state is the
    graph and [total_lo_demand]. *)
Fixpoint demands_loop (m_in m_out : gmap string string)
    (ds : list (string * Q)) (st : DiGraph * Q) : exn + (DiGraph * Q) :=
  match ds with
  | [] => inr st
  | (v, d) :: ds' =>
      let '(G, total_lo_demand) := st in
      if Qgt_b d TOLERANCE then
        match m_in !! v with
        | None => inl (KeyError v)
        | Some v_mapped =>
            demands_loop m_in m_out ds'
              (add_edge s_super v_mapped (Finite d) G, total_lo_demand + d)
        end
      else if Qlt_b d (- TOLERANCE) then
        match m_out !! v with
        | None => inl (KeyError v)
        | Some v_mapped =>
            demands_loop m_in m_out ds'
              (add_edge v_mapped t_super (Finite (- d)) G, total_lo_demand)
        end
      else demands_loop m_in m_out ds' st
  end.

(** The loop over [sources.items()], lines 139-141; the state is the graph
    and [total_supply]. *)
Fixpoint sources_loop (m_out : gmap string string)
    (ss : list (string * Q)) (st : DiGraph * Q) : exn + (DiGraph * Q) :=
  match ss with
  | [] => inr st
  | (s, supply) :: ss' =>
      let '(G, total) := st in
      match m_out !! s with
      | None => inl (KeyError s)
      | Some s_mapped =>
          sources_loop m_out ss'
            (add_edge s_super s_mapped (Finite supply) G, total + supply)
      end
  end.

(** [sink_cap], line 143. *)
Definition sink_cap (total : Q) : capacity :=
  if Qgt_b total TOLERANCE then Finite total else Unbounded.

(** The reverse map of lines 153-161. *)
Definition make_node_map (ns : list string)
    (split : list (string * (string * string))) : gmap string string :=
  let m0 := <[t_super := t_super]> (<[s_super := s_super]> (identity_map ns)) in
  foldl (λ m '(v, (v_in, v_out)), <[v_out := v]> (<[v_in := v]> m)) m0 split.

Section builder.
Variable order : set_order.

Definition build_transformed_graph (data : instance)
  : exn + (DiGraph * build_data) :=
  match sink_of data with
  | None => inl NoSink
  | Some snk =>
      let all_nodes := all_nodes_of data snk in
      let m0 := identity_map (order all_nodes) in
      let sp := foldl (split_step data snk)
                  {| sp_G := []; sp_in := m0; sp_out := m0; sp_split := [] |}
                  (node_caps data) in
      let m_in := sp_in sp in
      let m_out := sp_out sp in
      match edges_loop m_in m_out (edges data)
              {| es_G := sp_G sp; es_orig := []; es_lo := [] |} with
      | inl e => inl e
      | inr es =>
          let G1 := add_node t_super (add_node s_super (es_G es)) in
          match demands_loop m_in m_out (es_lo es) (G1, 0) with
          | inl e => inl e
          | inr (G2, total_lo_demand) =>
              match sources_loop m_out (sources data) (G2, 0) with
              | inl e => inl e
              | inr (G3, total) =>
                  match m_in !! snk with
                  | None => inl (KeyError snk)
                  | Some snk_mapped =>
                      let G4 := add_edge snk_mapped t_super (sink_cap total) G3 in
                      inr (G4,
                           {| total_expected_flow := total_lo_demand + total;
                              total_supply := total;
                              original_edges := es_orig es;
                              split_nodes := sp_split sp;
                              node_map :=
                                make_node_map (order all_nodes) (sp_split sp) |})
                  end
              end
          end
      end
  end.
End builder.

(** ** MaxFlowOracle: the calls into [networkx] *)

(** [flow_dict]: a dict of dicts, only ever looked up. *)
Abbreviation flow_assignment := (gmap string (gmap string Q)).

(** What [nx.maximum_flow] does: it returns [(max_flow, flow_dict)] or
    raises one of the two exceptions that [solve_belts] handles. *)
Inductive flow_outcome : Type :=
| FlowOk (max_flow : Q) (flow_dict : flow_assignment)
| FlowNetworkXUnbounded
| FlowNetworkXError.

(** What [nx.minimum_cut] does: it returns
    [(cut_value, (reachable, unreachable))] or raises [NetworkXError].
    It is only called after [nx.maximum_flow] has returned on the same
    graph, so it does not raise [NetworkXUnbounded]. *)
Inductive cut_outcome : Type :=
| CutOk (cut_value : Q) (reachable unreachable : gset string)
| CutNetworkXError.

(** A program that may call the oracle before it returns. *)
Inductive prog (A : Type) : Type :=
| Ret (a : A)
| MaximumFlow (G : DiGraph) (s t : string) (k : flow_outcome → prog A)
| MinimumCut (G : DiGraph) (s t : string) (k : cut_outcome → prog A).
Arguments Ret {A} a.
Arguments MaximumFlow {A} G s t k.
Arguments MinimumCut {A} G s t k.

Record oracle : Type := {
  maximum_flow : DiGraph → string → string → flow_outcome;
  minimum_cut : DiGraph → string → string → cut_outcome
}.

Inductive oracle_call : Type :=
| CallMaximumFlow (G : DiGraph) (s t : string)
| CallMinimumCut (G : DiGraph) (s t : string).

(** Running a program against an oracle: its value and the calls it made. *)
Fixpoint run {A : Type} (o : oracle) (p : prog A) : A :=
  match p with
  | Ret a => a
  | MaximumFlow G s t k => run o (k (maximum_flow o G s t))
  | MinimumCut G s t k => run o (k (minimum_cut o G s t))
  end.

Fixpoint calls {A : Type} (o : oracle) (p : prog A) : list oracle_call :=
  match p with
  | Ret _ => []
  | MaximumFlow G s t k =>
      CallMaximumFlow G s t :: calls o (k (maximum_flow o G s t))
  | MinimumCut G s t k =>
      CallMinimumCut G s t :: calls o (k (minimum_cut o G s t))
  end.

(** ** FlowReconstructor: [format_success] *)

Definition get_flow (flow_dict : flow_assignment) (u v : string) : Q :=
  match flow_dict !! u with
  | Some row =>
      match row !! v with
      | Some f => f
      | None => 0
      end
  | None => 0
  end.

(** The flow reported for one recorded edge, line 175. *)
Definition edge_flow (flow_dict : flow_assignment) (r : orig_edge) : Q :=
  get_flow flow_dict (oe_mapped r).1 (oe_mapped r).2 + oe_lo r.

(** The loop of lines 174-182, with [final_flows] as accumulator. *)
Fixpoint flows_loop (flow_dict : flow_assignment) (rs : list orig_edge)
    (final_flows : list flow_entry) : list flow_entry :=
  match rs with
  | [] => final_flows
  | r :: rs' =>
      let flow := edge_flow flow_dict r in
      if Qgt_b flow TOLERANCE then
        flows_loop flow_dict rs'
          (final_flows ++ [ {| f_from := (oe_orig r).1;
                               f_to := (oe_orig r).2;
                               f_flow := flow |} ])
      else flows_loop flow_dict rs' final_flows
  end.

Definition format_success (flow_dict : flow_assignment) (data : instance)
    (orig : list orig_edge) (total : Q) : result :=
  Ok total (flows_loop flow_dict orig []).

(** ** InfeasibilityCertifier: [format_infeasible] *)

(** Python compares strings by code point. *)
Definition str_le (a b : string) : Prop := String.leb a b = true.

#[global] Instance str_le_dec : RelDecision str_le.
Proof. intros a b. unfold str_le. apply _. Defined.

(** [sorted(...)] on a list of strings. *)
Definition sorted (l : list string) : list string := merge_sort str_le l.

(** The loop of lines 206-208 over the elements of [reachable]. *)
Definition cut_reachable_loop (nm : gmap string string) (ns : list string)
  : gset string :=
  foldl (λ acc n,
           match nm !! n with
           | Some original =>
               if bool_decide (n ≠ s_super) && bool_decide (n ≠ t_super)
               then acc ∪ {[original]} else acc
           | None => acc
           end) ∅ ns.

(** The loop of lines 213-215. *)
Definition tight_nodes_loop (reachable unreachable : gset string)
    (split : list (string * (string * string))) : list string :=
  foldl (λ acc '(v, (v_in, v_out)),
           if bool_decide (v_in ∈ reachable) && bool_decide (v_out ∈ unreachable)
           then acc ++ [v] else acc) [] split.

(** The loop of lines 217-222. *)
Definition tight_edges_loop (reachable unreachable : gset string)
    (orig : list orig_edge) : list (string * string) :=
  foldl (λ acc r,
           if bool_decide ((oe_mapped r).1 ∈ reachable)
              && bool_decide ((oe_mapped r).2 ∈ unreachable)
           then acc ++ [oe_orig r] else acc) [] orig.

Section solver.
Variable order : set_order.

(** Lines 202-232: the certificate computed from a node partition. *)
Definition certify (reachable unreachable : gset string)
    (deficit_val : Q) (bd : build_data) : certificate :=
  let cut_reachable_original :=
    cut_reachable_loop (node_map bd) (order reachable) in
  let tn := tight_nodes_loop reachable unreachable (split_nodes bd) in
  let te := tight_edges_loop reachable unreachable (original_edges bd) in
  {| cut_reachable := sorted (order cut_reachable_original);
     demand_balance := deficit_val;
     tight_nodes := sorted (order (list_to_set tn));
     tight_edges := te |}.

Definition format_infeasible (G : DiGraph) (max_flow expected : Q)
    (bd : build_data) : prog result :=
  let deficit_val := expected - max_flow in
  MinimumCut G s_super t_super (λ out,
    let '(reachable, unreachable) :=
      match out with
      | CutOk _ reachable unreachable => (reachable, unreachable)
      | CutNetworkXError =>
          let reachable : gset string := {[ s_super ]} in
          (reachable, list_to_set G.*1 ∖ reachable)
      end in
    Ret (Infeasible (certify reachable unreachable deficit_val bd))).

(** ** Orchestrator: [solve_belts] *)

Definition solve_belts (data : instance) : prog result :=
  match build_transformed_graph order data with
  | inl e => Ret (Error (FailedToBuild e))
  | inr (G, bd) =>
      let expected := total_expected_flow bd in
      if Qlt_b expected TOLERANCE then
        Ret (format_success ∅ data (original_edges bd) 0)
      else
        MaximumFlow G s_super t_super (λ out,
          match out with
          | FlowNetworkXUnbounded => Ret (Error FlowUnbounded)
          | FlowNetworkXError => Ret (Error MaxFlowFailed)
          | FlowOk max_flow flow_dict =>
              if Qlt_b max_flow (expected - TOLERANCE) then
                format_infeasible G max_flow expected bd
              else
                Ret (format_success flow_dict data (original_edges bd)
                       (total_supply bd))
          end)
  end.
End solver.

(** * Predicates of the specification *)

(** An edge whose bounds the builder rejects: [hi < lo - TOLERANCE]. *)
Definition bad_bounds (e : edge) : Prop :=
  match e_upper e with
  | Some hi => hi < lower_of e - TOLERANCE
  | None => False
  end.


(** The nodes that the builder splits: those with a cap that are neither
    the sink nor a source (line 95). *)
Definition is_split (data : instance) (snk : string) (n : string) : bool :=
  bool_decide (n ∈ (node_caps data).*1)
  && negb (bool_decide (n = snk) || dict_has n (sources data)).

(** The [in] and [out] facets of a node. *)
Definition facet_in (data : instance) (snk : string) (n : string) : string :=
  if is_split data snk n then v_in_of n else n.
Definition facet_out (data : instance) (snk : string) (n : string) : string :=
  if is_split data snk n then v_out_of n else n.

(** The record kept for an input edge, and its transformed edge. *)
Definition mapped_edge (data : instance) (snk : string) (e : edge)
  : string * string :=
  (facet_out data snk (e_from e), facet_in data snk (e_to e)).

Definition record_of (data : instance) (snk : string) (e : edge) : orig_edge :=
  {| oe_orig := (e_from e, e_to e);
     oe_mapped := mapped_edge data snk e;
     oe_lo := lower_of e |}.

(** The effect of one accepted edge on the state of the edge loop. *)
Definition edge_step (data : instance) (snk : string)
    (st : edge_state) (e : edge) : edge_state :=
  {| es_G := add_edge (mapped_edge data snk e).1 (mapped_edge data snk e).2
               (edge_cap e) (es_G st);
     es_orig := es_orig st ++ [record_of data snk e];
     es_lo := demand_add (e_to e) (lower_of e)
                (demand_add (e_from e) (- lower_of e) (es_lo st)) |}.

(** The effect of one balance entry, and of one source. *)
Definition demand_step (data : instance) (snk : string)
    (st : DiGraph * Q) (vd : string * Q) : DiGraph * Q :=
  if Qgt_b vd.2 TOLERANCE then
    (add_edge s_super (facet_in data snk vd.1) (Finite vd.2) st.1, st.2 + vd.2)
  else if Qlt_b vd.2 (- TOLERANCE) then
    (add_edge (facet_out data snk vd.1) t_super (Finite (- vd.2)) st.1, st.2)
  else st.

Definition source_step (data : instance) (snk : string)
    (st : DiGraph * Q) (ss : string * Q) : DiGraph * Q :=
  (add_edge s_super (facet_out data snk ss.1) (Finite ss.2) st.1, st.2 + ss.2).

(** The graph after the loop over [node_caps]. *)
Definition split_graph (data : instance) (snk : string) : DiGraph :=
  sp_G (foldl (split_step data snk)
          {| sp_G := []; sp_in := ∅; sp_out := ∅; sp_split := [] |}
          (node_caps data)).

(** The state after the loop over the edges of an accepted instance. *)
Definition edges_state (data : instance) (snk : string) : edge_state :=
  foldl (edge_step data snk)
    {| es_G := split_graph data snk; es_orig := []; es_lo := [] |}
    (edges data).

(** The balances, the supply and the graph of an accepted instance. *)
Definition demands_state (data : instance) (snk : string) : DiGraph * Q :=
  let es := edges_state data snk in
  foldl (demand_step data snk)
    (add_node t_super (add_node s_super (es_G es)), 0) (es_lo es).

Definition sources_state (data : instance) (snk : string) : DiGraph * Q :=
  foldl (source_step data snk) ((demands_state data snk).1, 0) (sources data).

Definition built_graph (data : instance) (snk : string) : DiGraph :=
  let ss := sources_state data snk in
  add_edge (facet_in data snk snk) t_super (sink_cap ss.2) ss.1.

Definition built_split (data : instance) (snk : string)
  : list (string * (string * string)) :=
  sp_split (foldl (split_step data snk)
              {| sp_G := []; sp_in := ∅; sp_out := ∅; sp_split := [] |}
              (node_caps data)).

Definition built_data (order : set_order) (data : instance) (snk : string)
  : build_data :=
  {| total_expected_flow :=
       (demands_state data snk).2 + (sources_state data snk).2;
     total_supply := (sources_state data snk).2;
     original_edges := es_orig (edges_state data snk);
     split_nodes := built_split data snk;
     node_map :=
       make_node_map (order (all_nodes_of data snk)) (built_split data snk) |}.

#[global] Instance Qlt_decision (a b : Q) : Decision (a < b).
Proof. destruct (Qlt_le_dec a b); [left | right]; [done | by apply Qle_not_lt]. Defined.

(** The entry of the [flows] list for a recorded edge. *)
Definition flow_entry_of (flow_dict : flow_assignment) (r : orig_edge)
  : flow_entry :=
  {| f_from := (oe_orig r).1;
     f_to := (oe_orig r).2;
     f_flow := edge_flow flow_dict r |}.

(** The flow of a transformed edge in a flow assignment, when it has one. *)
Definition assigned (flow_dict : flow_assignment) (uv : string * string)
  : option Q :=
  flow_dict !! uv.1 ≫= (λ row, row !! uv.2).

(** A balance entry of [lo_demands] that is zero. *)
Definition zero_balance (kv : string * Q) : Prop := kv.2 == 0.

(** The last character of a string. *)
Fixpoint last_char (s : string) : option Ascii.ascii :=
  match s with
  | EmptyString => None
  | String c EmptyString => Some c
  | String _ s' => last_char s'
  end.

#[global] Instance bad_bounds_dec (e : edge) : Decision (bad_bounds e).
Proof. unfold bad_bounds. destruct (e_upper e); apply _. Defined.

(** A recorded edge that crosses a partition from its first side to its
    second, and a split node that does. *)
Definition crosses (reachable unreachable : gset string) (uv : string * string)
  : Prop :=
  uv.1 ∈ reachable ∧ uv.2 ∈ unreachable.

(** The partition that [format_infeasible] works with: the one returned by
    [nx.minimum_cut], or the fallback when it raises. *)
Definition partition_used (o : oracle) (G : DiGraph)
    (reachable unreachable : gset string) : Prop :=
  (∃ cv, minimum_cut o G s_super t_super = CutOk cv reachable unreachable)
  ∨ (minimum_cut o G s_super t_super = CutNetworkXError
     ∧ reachable = {[ s_super ]}
     ∧ unreachable = list_to_set G.*1 ∖ {[ s_super ]}).

(** An input identifier that coincides with an identifier the builder
    makes up: the supersource, the supersink, or a facet of a split node. *)
Definition reserved (data : instance) (snk : string) (n : string) : bool :=
  bool_decide (n = s_super) || bool_decide (n = t_super)
  || existsb (λ w, is_split data snk w
                   && (bool_decide (n = v_in_of w) || bool_decide (n = v_out_of w)))
       (node_caps data).*1.

(** No node of the instance has a reserved identifier. *)
Definition names_clear (data : instance) (snk : string) : Prop :=
  set_Forall (λ n, reserved data snk n = false) (all_nodes_of data snk).

(** The sink edge as the specification describes it: capacity
    [total_supply] when some source has a (finite) supply limit, unbounded
    otherwise.  Every supply of an [instance] is finite. *)
Definition sink_edge_as_specified (data : instance) (snk : string)
    (G : DiGraph) (bd : build_data) : Prop :=
  (sources data ≠ [] →
   edge_capacity G (facet_in data snk snk) t_super
     = Some (Finite (total_supply bd))) ∧
  (sources data = [] →
   edge_capacity G (facet_in data snk snk) t_super = Some Unbounded).

(** Edges ordered by identifier: by [from], then by [to]. *)
Definition edge_le (a b : string * string) : Prop :=
  str_le a.1 b.1 ∧ (a.1 = b.1 → str_le a.2 b.2).

(** ** Example instances *)

Definition belt (u v : string) (lo hi : option Q) : edge :=
  {| e_from := u; e_to := v; e_lower := lo; e_upper := hi |}.

(** Scenario A of the specification. *)
Definition scenario_a : instance :=
  {| sources := [("A"%string, 10)];
     sink := Some "B"%string;
     edges := [belt "A" "B" None (Some 10)];
     node_caps := [] |}.

Definition scenario_a_nx : oracle :=
  {| maximum_flow := λ _ _ _,
       FlowOk 10 (list_to_map
         [("s_super"%string, {[ "A"%string := 10 ]});
          ("A"%string, {[ "B"%string := 10 ]});
          ("B"%string, {[ "t_super"%string := 10 ]});
          ("t_super"%string, ∅)]);
     minimum_cut := λ _ _ _,
       CutOk 10 {[ "s_super"%string; "A"%string; "B"%string ]}
         {[ "t_super"%string ]} |}.

(** Scenario B of the specification. *)
Definition scenario_b : instance :=
  {| sources := [("A"%string, 10)];
     sink := Some "B"%string;
     edges := [belt "A" "B" None (Some 5)];
     node_caps := [] |}.

Definition scenario_b_nx : oracle :=
  {| maximum_flow := λ _ _ _,
       FlowOk 5 (list_to_map
         [("s_super"%string, {[ "A"%string := 5 ]});
          ("A"%string, {[ "B"%string := 5 ]});
          ("B"%string, {[ "t_super"%string := 5 ]});
          ("t_super"%string, ∅)]);
     minimum_cut := λ _ _ _,
       CutOk 5 {[ "s_super"%string; "A"%string ]}
         {[ "B"%string; "t_super"%string ]} |}.

(** Scenario C of the specification. *)
Definition scenario_c : instance :=
  {| sources := [("A"%string, 10)];
     sink := Some "B"%string;
     edges := [belt "A" "B" (Some 5) (Some 2)];
     node_caps := [] |}.

(** No source, no forced flow. *)
Definition idle_network : instance :=
  {| sources := [];
     sink := Some "B"%string;
     edges := [belt "A" "B" None (Some 10); belt "A" "C" (Some 0) None];
     node_caps := [("A"%string, 3)] |}.

(** A single source that supplies nothing. *)
Definition idle_source : instance :=
  {| sources := [("A"%string, 0)];
     sink := Some "B"%string;
     edges := [belt "A" "B" None (Some 10)];
     node_caps := [] |}.

(** Two sources and three narrow belts into the sink, two of them
    parallel. *)
Definition three_belts : instance :=
  {| sources := [("B"%string, 5); ("A"%string, 5)];
     sink := Some "T"%string;
     edges := [belt "B" "T" None (Some 1);
               belt "A" "T" None (Some 1);
               belt "B" "T" None (Some 1)];
     node_caps := [] |}.

(** What [networkx] answers on the graph of [three_belts]: one unit through
    each of the two transformed edges into the sink, which are the cut. *)
Definition three_belts_nx : oracle :=
  {| maximum_flow := λ _ _ _,
       FlowOk 2 (list_to_map
         [("B"%string, {[ "T"%string := 1 ]});
          ("T"%string, {[ "t_super"%string := 2 ]});
          ("A"%string, {[ "T"%string := 1 ]});
          ("s_super"%string, {[ "B"%string := 1; "A"%string := 1 ]});
          ("t_super"%string, ∅)]);
     minimum_cut := λ _ _ _,
       CutOk 2 {[ "s_super"%string; "A"%string; "B"%string ]}
         {[ "T"%string; "t_super"%string ]} |}.

(** An instance with a belt that starts at a node called [s_super]. *)
Definition shadowed_supersource : instance :=
  {| sources := [("A"%string, 10)];
     sink := Some "B"%string;
     edges := [belt "s_super" "B" None (Some 5)];
     node_caps := [] |}.

(** What [networkx] answers on its graph: 5 units over
    [s_super -> B -> t_super]; [A] is a dead end on the source side. *)
Definition shadowed_supersource_nx : oracle :=
  {| maximum_flow := λ _ _ _,
       FlowOk 5 (list_to_map
         [("s_super"%string, {[ "B"%string := 5; "A"%string := 0 ]});
          ("B"%string, {[ "t_super"%string := 5 ]});
          ("t_super"%string, ∅);
          ("A"%string, ∅)]);
     minimum_cut := λ _ _ _,
       CutOk 5 {[ "s_super"%string; "A"%string ]}
         {[ "B"%string; "t_super"%string ]} |}.

(** A graph of [networkx] has each node once and, from a node, each
    successor once. *)
Definition graph_wf (G : DiGraph) : Prop :=
  NoDup G.*1 ∧ Forall (λ p, NoDup p.2.*1) G.

(** The input edges that run between the same two nodes as [e]. *)
Definition parallel (e e' : edge) : Prop :=
  e_from e' = e_from e ∧ e_to e' = e_to e.

(** A capped node [A] next to a node that is called [A_out]. *)
Definition shadowed_facet : instance :=
  {| sources := [("S"%string, 10)];
     sink := Some "B"%string;
     edges := [belt "A" "B" None (Some 3);
               belt "A" "B" None (Some 7);
               belt "A_out" "B" None (Some 1)];
     node_caps := [("A"%string, 4)] |}.

(** Two parallel belts with different bounds. *)
Definition doubled_belt : instance :=
  {| sources := [("A"%string, 10)];
     sink := Some "B"%string;
     edges := [belt "A" "B" (Some 1) (Some 3);
               belt "A" "B" None (Some 7)];
     node_caps := [] |}.



(** ** Where the edges of the transformed graph come from *)

(** The six kinds of edge that the builder adds (lines 101, 121, 134, 137,
    140 and 144). *)
Inductive edge_origin (data : instance) (snk : string)
  : string * string * capacity → Prop :=
| origin_split n cap :
    (n, cap) ∈ node_caps data → is_split data snk n = true →
    edge_origin data snk (v_in_of n, v_out_of n, Finite cap)
| origin_input e :
    e ∈ edges data →
    edge_origin data snk
      ((mapped_edge data snk e).1, (mapped_edge data snk e).2, edge_cap e)
| origin_demand v d :
    (v, d) ∈ es_lo (edges_state data snk) → TOLERANCE < d →
    edge_origin data snk (s_super, facet_in data snk v, Finite d)
| origin_surplus v d :
    (v, d) ∈ es_lo (edges_state data snk) → d < - TOLERANCE →
    edge_origin data snk (facet_out data snk v, t_super, Finite (- d))
| origin_source s supply :
    (s, supply) ∈ sources data →
    edge_origin data snk (s_super, facet_out data snk s, Finite supply)
| origin_sink :
    edge_origin data snk
      (snk, t_super, sink_cap (sources_state data snk).2).

(** A capacity that is not negative. *)
Definition cap_nonneg (c : capacity) : Prop :=
  match c with
  | Finite q => 0 <= q
  | Unbounded => True
  end.

(** The lower bounds that force flow into, and out of, a node. *)
Definition forced_in (es : list edge) (v : string) : Q :=
  foldr (λ e acc, (if decide (e_to e = v) then lower_of e else 0) + acc) 0 es.

Definition forced_out (es : list edge) (v : string) : Q :=
  foldr (λ e acc, (if decide (e_from e = v) then lower_of e else 0) + acc) 0 es.

(** The sum of the balances that exceed the tolerance. *)
Definition positive_demand (ds : list (string * Q)) : Q :=
  foldr (λ vd acc, if Qgt_b vd.2 TOLERANCE then vd.2 + acc else acc) 0 ds.

(** A capped node between the source and the sink. *)
Definition capped_hub : instance :=
  {| sources := [("S"%string, 10)];
     sink := Some "T"%string;
     edges := [belt "S" "M" None None; belt "M" "T" None None];
     node_caps := [("M"%string, 3)] |}.

(** What [networkx] answers on its graph: 3 units through the hub, whose
    internal edge is the cut. *)
Definition capped_hub_nx : oracle :=
  {| maximum_flow := λ _ _ _,
       FlowOk 3 (list_to_map
         [("M_in"%string, {[ "M_out"%string := 3 ]});
          ("M_out"%string, {[ "T"%string := 3 ]});
          ("S"%string, {[ "M_in"%string := 3 ]});
          ("T"%string, {[ "t_super"%string := 3 ]});
          ("s_super"%string, {[ "S"%string := 3 ]});
          ("t_super"%string, ∅)]);
     minimum_cut := λ _ _ _,
       CutOk 3 {[ "s_super"%string; "S"%string; "M_in"%string ]}
         {[ "M_out"%string; "T"%string; "t_super"%string ]} |}.

(** A flow value that fits under a capacity. *)
Definition cap_ge (c : capacity) (f : Q) : Prop :=
  match c with
  | Finite q => f <= q
  | Unbounded => True
  end.

(** A flow assignment that is feasible on a graph: every flow it assigns
    is on an edge of the graph, not negative and within the capacity. *)
Definition respects (G : DiGraph) (flow_dict : flow_assignment) : Prop :=
  ∀ u v f, assigned flow_dict (u, v) = Some f →
    0 <= f ∧ ∃ c, edge_capacity G u v = Some c ∧ cap_ge c f.

(** ** What the result depends on *)



(** ** Maximum flows

    The contract of the oracle in the specification: the value returned is
    the maximum achievable flow value and the assignment achieves it. *)















(** * Properties *)

(** ** Comparisons *)

Lemma Qgt_b_true (a b : Q) : Qgt_b a b = true ↔ b < a.
Proof.
  unfold Qgt_b. destruct (Qlt_le_dec b a) as [H|H]; split; intros; try done.
  exfalso. apply (Qlt_not_le _ _ H0 H).
Qed.

Lemma Qlt_b_true (a b : Q) : Qlt_b a b = true ↔ a < b.
Proof. apply (Qgt_b_true b a). Qed.

Lemma Qgt_b_false (a b : Q) : Qgt_b a b = false ↔ a <= b.
Proof.
  unfold Qgt_b. destruct (Qlt_le_dec b a) as [H|H]; split; intros; try done.
  exfalso. apply (Qlt_not_le _ _ H H0).
Qed.

Lemma Qlt_b_false (a b : Q) : Qlt_b a b = false ↔ b <= a.
Proof. apply (Qgt_b_false b a). Qed.

Lemma cap_lt_bad_bounds (e : edge) :
  cap_lt (upper_of e) (lower_of e - TOLERANCE) = true ↔ bad_bounds e.
Proof.
  unfold bad_bounds, upper_of. destruct (e_upper e) as [hi|]; simpl.
  - apply (Qlt_b_true hi).
  - split; [discriminate | tauto].
Qed.

(** ** The loop over the edges stops at the first rejected edge *)

Lemma edges_loop_bad (m_in m_out : gmap string string) (es : list edge) :
  Exists bad_bounds es →
  ∀ st, ∃ e, edges_loop m_in m_out es st = inl e.
Proof.
  induction es as [|e es IH]; intros Hex st.
  - inversion Hex.
  - simpl. destruct (cap_lt (upper_of e) (lower_of e - TOLERANCE)) eqn:Hlt.
    + eauto.
    + destruct (m_out !! e_from e); [|eauto].
      destruct (m_in !! e_to e); [|eauto].
      apply IH. inversion Hex as [? ? Hbad|]; subst; [|done].
      apply cap_lt_bad_bounds in Hbad. congruence.
Qed.

(** C2: when the sink is unset (absent, or empty, which [if not sink]
    treats alike), or some edge has [upper < lower - ε], the solve is the
    immediate result [status: "error"]: graph construction aborts with an
    exception and the program returns without any call to the max-flow
    oracle. *)
Theorem invalid_instance_is_error (order : set_order) (data : instance) :
  sink_of data = None ∨ Exists bad_bounds (edges data) →
  (∃ e, build_transformed_graph order data = inl e) ∧
  (∃ m, solve_belts order data = Ret (Error m)) ∧
  (∀ o, calls o (solve_belts order data) = [] ∧
        status_of (run o (solve_belts order data)) = StatusError).
Proof.
  intros Hinv.
  assert (∃ e, build_transformed_graph order data = inl e) as [e He].
  { unfold build_transformed_graph. destruct Hinv as [Hs|Hbad].
    - rewrite Hs. eauto.
    - destruct (sink_of data) as [snk|]; [|eauto].
      edestruct (edges_loop_bad) as [e He]; [exact Hbad|].
      rewrite He. eauto. }
  unfold solve_belts. rewrite He. eauto 10.
Qed.

(** ** Insertion-ordered dictionaries *)

Section dict_facts.
Context {V : Type}.
Implicit Types (d : list (string * V)) (k : string) (v : V).

Lemma dict_get_set_eq d k v : dict_get k (dict_set k v d) = Some v.
Proof.
  induction d as [|[k' v'] d IH]; simpl.
  - by rewrite decide_True.
  - destruct (decide (k = k')); simpl.
    + by rewrite decide_True.
    + by rewrite decide_False.
Qed.

Lemma dict_get_set_ne d k k' v :
  k ≠ k' → dict_get k' (dict_set k v d) = dict_get k' d.
Proof.
  intros Hne. induction d as [|[k0 v0] d IH]; simpl.
  - by rewrite decide_False.
  - destruct (decide (k = k0)) as [->|]; simpl.
    + by rewrite !decide_False.
    + destruct (decide (k' = k0)); [done | apply IH].
Qed.

Lemma dict_get_app d d' k :
  dict_get k (d ++ d') =
  match dict_get k d with Some v => Some v | None => dict_get k d' end.
Proof.
  induction d as [|[k0 v0] d IH]; simpl; [done|].
  destruct (decide (k = k0)); [done | apply IH].
Qed.

Lemma dict_get_Some_elem d k v : dict_get k d = Some v → (k, v) ∈ d.
Proof.
  induction d as [|[k0 v0] d IH]; simpl; [done|].
  destruct (decide (k = k0)) as [->|].
  - intros [= ->]. left.
  - intros H. right. by apply IH.
Qed.

Lemma dict_get_None d k : dict_get k d = None ↔ k ∉ d.*1.
Proof.
  induction d as [|[k0 v0] d IH]; simpl.
  - split; [intros _; apply not_elem_of_nil | done].
  - rewrite not_elem_of_cons. destruct (decide (k = k0)); split; try done.
    + intros [? _]. done.
    + intros ?. split; [done | by apply IH].
    + intros [_ ?]. by apply IH.
Qed.

Lemma dict_has_true d k : dict_has k d = true ↔ k ∈ d.*1.
Proof.
  unfold dict_has. destruct (dict_get k d) eqn:H.
  - split; [|done]. intros _. destruct (decide (k ∈ d.*1)); [done|].
    apply dict_get_None in n. congruence.
  - split; [done|]. intros Hin. apply dict_get_None in H. done.
Qed.

Lemma dict_set_keys d k v :
  ∀ x, x ∈ (dict_set k v d).*1 ↔ x = k ∨ x ∈ d.*1.
Proof.
  intros x. induction d as [|[k0 v0] d IH]; simpl.
  - rewrite list_elem_of_singleton. split; [auto | intros [?|H]; [done | inversion H]].
  - destruct (decide (k = k0)) as [->|]; simpl; rewrite !elem_of_cons.
    + tauto.
    + rewrite IH. tauto.
Qed.

Lemma dict_set_NoDup d k v : NoDup d.*1 → NoDup (dict_set k v d).*1.
Proof.
  induction d as [|[k0 v0] d IH]; simpl; intros Hnd.
  - apply NoDup_singleton.
  - inversion Hnd as [|? ? Hnotin Hnd']; subst.
    destruct (decide (k = k0)) as [->|]; simpl.
    + by constructor.
    + constructor; [|by apply IH].
      rewrite dict_set_keys. intros [?|?]; done.
Qed.

(** The entries enumerated by [items()] under a key that is present once. *)
Lemma dict_get_elem_NoDup d k v :
  NoDup d.*1 → (k, v) ∈ d → dict_get k d = Some v.
Proof.
  induction d as [|[k0 v0] d IH]; simpl; intros Hnd Hin.
  - inversion Hin.
  - inversion Hnd as [|? ? Hnotin Hnd']; subst.
    apply elem_of_cons in Hin as [[= -> ->]|Hin].
    + by rewrite decide_True.
    + destruct (decide (k = k0)) as [->|]; [|by apply IH].
      exfalso. apply Hnotin. apply list_elem_of_fmap. by exists (k0, v).
Qed.
End dict_facts.

(** ** The graph *)

Lemma dict_get_add_node (G : DiGraph) (n k : string) :
  dict_get k (add_node n G) =
  match dict_get k G with
  | Some s => Some s
  | None => if decide (k = n) then Some [] else None
  end.
Proof.
  unfold add_node, dict_has. destruct (dict_get n G) eqn:Hn.
  - destruct (dict_get k G) eqn:Hk; [done|].
    destruct (decide (k = n)) as [->|]; [congruence | done].
  - rewrite dict_get_app. simpl. destruct (dict_get k G); [done|].
    by destruct (decide (k = n)).
Qed.

Lemma edge_capacity_add_node (G : DiGraph) (n u v : string) :
  edge_capacity (add_node n G) u v = edge_capacity G u v.
Proof.
  unfold edge_capacity. rewrite dict_get_add_node.
  destruct (dict_get u G); [done|]. by destruct (decide (u = n)).
Qed.

Lemma add_edge_unfold (G : DiGraph) (u v : string) (c : capacity) :
  ∃ succ, dict_get u (add_node v (add_node u G)) = Some succ ∧
          add_edge u v c G =
          dict_set u (dict_set v c succ) (add_node v (add_node u G)).
Proof.
  unfold add_edge. rewrite !dict_get_add_node.
  destruct (dict_get u G) as [s|] eqn:Hu; [eauto|].
  rewrite decide_True by done. eauto.
Qed.

Lemma edge_capacity_add_edge_eq (G : DiGraph) (u v : string) (c : capacity) :
  edge_capacity (add_edge u v c G) u v = Some c.
Proof.
  destruct (add_edge_unfold G u v c) as (succ & _ & ->).
  unfold edge_capacity. rewrite dict_get_set_eq. apply dict_get_set_eq.
Qed.

Lemma edge_capacity_add_edge_ne (G : DiGraph) (u v u' v' : string)
    (c : capacity) :
  (u, v) ≠ (u', v') →
  edge_capacity (add_edge u v c G) u' v' = edge_capacity G u' v'.
Proof.
  intros Hne. destruct (add_edge_unfold G u v c) as (succ & Hsucc & ->).
  unfold edge_capacity. destruct (decide (u = u')) as [<-|Hu].
  - rewrite dict_get_set_eq. rewrite dict_get_set_ne by congruence.
    rewrite !dict_get_add_node in Hsucc. rewrite decide_True in Hsucc by done.
    destruct (dict_get u G) as [s|]; simplify_eq; [done|].
    by destruct (decide (u = v)); simplify_eq.
  - rewrite dict_get_set_ne by done. rewrite !dict_get_add_node.
    destruct (dict_get u' G); [done|].
    destruct (decide (u' = u)); [congruence|].
    by destruct (decide (u' = v)).
Qed.

(** ** The facet maps of the builder *)

Lemma identity_fold_lookup (ns : list string) (m : gmap string string)
    (k : string) :
  foldl (λ m n, <[n := n]> m) m ns !! k =
  if bool_decide (k ∈ ns) then Some k else m !! k.
Proof.
  revert m. induction ns as [|n ns IH]; intros m; cbn [foldl].
  - rewrite bool_decide_eq_false_2; [done | apply not_elem_of_nil].
  - rewrite IH. destruct (decide (k ∈ ns)) as [Hin|Hnin].
    + rewrite !bool_decide_eq_true_2; [done | by right | done].
    + rewrite (bool_decide_eq_false_2 (k ∈ ns)) by done.
      destruct (decide (k = n)) as [->|Hne].
      * rewrite bool_decide_eq_true_2 by left. apply lookup_insert_eq.
      * rewrite bool_decide_eq_false_2.
        -- by apply lookup_insert_ne.
        -- rewrite elem_of_cons. tauto.
Qed.

Lemma identity_map_lookup (order : set_order) (S : gset string) (k : string) :
  identity_map (order S) !! k = if bool_decide (k ∈ S) then Some k else None.
Proof.
  unfold identity_map. rewrite identity_fold_lookup, lookup_empty.
  assert (k ∈ order S ↔ k ∈ S) as Hiff.
  { rewrite (iter_perm order S). apply elem_of_elements. }
  by rewrite (bool_decide_ext _ _ Hiff).
Qed.

Lemma elem_of_all_nodes (data : instance) (snk : string) (x : string) :
  x ∈ all_nodes_of data snk ↔
  x ∈ (sources data).*1 ∨ x = snk
  ∨ (∃ e, e ∈ edges data ∧ (x = e_from e ∨ x = e_to e))
  ∨ x ∈ (node_caps data).*1.
Proof.
  unfold all_nodes_of.
  assert (∀ es (s0 : gset string),
    x ∈ foldl (λ s e, s ∪ {[e_from e]} ∪ {[e_to e]}) s0 es ↔
    x ∈ s0 ∨ ∃ e, e ∈ es ∧ (x = e_from e ∨ x = e_to e)) as Hfold.
  { induction es as [|e es IH]; intros s0; simpl.
    - split; [auto | intros [?|(e & He & _)]; [done | inversion He]].
    - rewrite IH. rewrite !elem_of_union, !elem_of_singleton. split.
      + intros [[[?|?]|?]|(e' & He' & Hx)]; eauto using list_elem_of_here.
        right. exists e'. split; [by right | done].
      + intros [?|(e' & He' & Hx)]; [auto|].
        apply elem_of_cons in He' as [->|He']; [tauto | eauto]. }
  rewrite elem_of_union, Hfold, elem_of_union, !elem_of_list_to_set,
    elem_of_singleton. tauto.
Qed.

Lemma split_step_spec (data : instance) (snk : string) (st : split_state)
    (n : string) (cap : Q) (k : string) :
  let sp := split_step data snk st (n, cap) in
  let hit := bool_decide (k = n)
             && negb (bool_decide (k = snk) || dict_has k (sources data)) in
  sp_in sp !! k = (if hit then Some (v_in_of k) else sp_in st !! k) ∧
  sp_out sp !! k = (if hit then Some (v_out_of k) else sp_out st !! k) ∧
  dict_get k (sp_split sp) =
    (if hit then Some (v_in_of k, v_out_of k) else dict_get k (sp_split st)).
Proof.
  cbn zeta. unfold split_step. destruct (decide (k = n)) as [->|Hne].
  - rewrite (bool_decide_eq_true_2 (n = n)) by done. cbn [andb].
    destruct (bool_decide (n = snk) || dict_has n (sources data));
      cbn [negb sp_in sp_out sp_split]; [done|].
    rewrite !lookup_insert_eq, dict_get_set_eq. done.
  - rewrite (bool_decide_eq_false_2 (k = n)) by done. cbn [andb].
    destruct (bool_decide (n = snk) || dict_has n (sources data));
      cbn [sp_in sp_out sp_split]; [done|].
    rewrite !lookup_insert_ne by done. rewrite dict_get_set_ne by done. done.
Qed.

(** The maps and the registry after the loop over [node_caps]. *)
Lemma split_fold_spec (data : instance) (snk : string)
    (caps : list (string * Q)) (st : split_state) (k : string) :
  let sp := foldl (split_step data snk) st caps in
  let hit := bool_decide (k ∈ caps.*1)
             && negb (bool_decide (k = snk) || dict_has k (sources data)) in
  sp_in sp !! k = (if hit then Some (v_in_of k) else sp_in st !! k) ∧
  sp_out sp !! k = (if hit then Some (v_out_of k) else sp_out st !! k) ∧
  dict_get k (sp_split sp) =
    (if hit then Some (v_in_of k, v_out_of k) else dict_get k (sp_split st)).
Proof.
  revert st. induction caps as [|[n cap] caps IH]; intros st; cbn [foldl].
  - rewrite (bool_decide_eq_false_2 (k ∈ _)) by apply not_elem_of_nil. done.
  - specialize (IH (split_step data snk st (n, cap))). cbn zeta in IH.
    destruct IH as (IH1 & IH2 & IH3). cbn zeta.
    rewrite IH1, IH2, IH3. clear IH1 IH2 IH3.
    destruct (split_step_spec data snk st n cap k) as (S1 & S2 & S3).
    cbn zeta in S1, S2, S3. rewrite S1, S2, S3. clear S1 S2 S3.
    rewrite fmap_cons. cbn [fst].
    assert (bool_decide (k ∈ n :: caps.*1) =
            bool_decide (k ∈ caps.*1) || bool_decide (k = n)) as ->.
    { destruct (decide (k ∈ caps.*1)), (decide (k = n)) as [->|];
        repeat first [ rewrite bool_decide_eq_true_2 by
                         (done || (by left) || (by right))
                     | rewrite bool_decide_eq_false_2 by
                         (done || (rewrite elem_of_cons; tauto)) ]; done. }
    destruct (bool_decide (k ∈ caps.*1)), (bool_decide (k = n)),
      (negb (bool_decide (k = snk) || dict_has k (sources data))); done.
Qed.

Lemma split_fold_NoDup (data : instance) (snk : string)
    (caps : list (string * Q)) (st : split_state) :
  NoDup (sp_split st).*1 →
  NoDup (sp_split (foldl (split_step data snk) st caps)).*1.
Proof.
  revert st. induction caps as [|[n cap] caps IH]; intros st Hnd; simpl;
    [done|].
  apply IH. unfold split_step.
  destruct (bool_decide (n = snk) || dict_has n (sources data)); simpl;
    [done | by apply dict_set_NoDup].
Qed.

(** The graph built by the loop over [node_caps] does not depend on the
    maps it starts from. *)
Lemma split_fold_graph (data : instance) (snk : string)
    (caps : list (string * Q)) (st st' : split_state) :
  sp_G st = sp_G st' → sp_split st = sp_split st' →
  sp_G (foldl (split_step data snk) st caps) =
    sp_G (foldl (split_step data snk) st' caps) ∧
  sp_split (foldl (split_step data snk) st caps) =
    sp_split (foldl (split_step data snk) st' caps).
Proof.
  revert st st'. induction caps as [|[n cap] caps IH]; intros st st' HG HS;
    simpl; [done|].
  apply IH; unfold split_step;
    destruct (bool_decide (n = snk) || dict_has n (sources data)); simpl;
    congruence.
Qed.

(** ** The builder succeeds on accepted instances

    On an instance with a sink and no rejected edge, every dictionary
    access of [build_transformed_graph] finds its key, and the result is
    the one described by [built_graph] and [built_data]. *)

Section build_facts.
Variables (order : set_order) (data : instance) (snk : string).

Let m0 := identity_map (order (all_nodes_of data snk)).
Let sp := foldl (split_step data snk)
            {| sp_G := []; sp_in := m0; sp_out := m0; sp_split := [] |}
            (node_caps data).

Lemma is_split_all_nodes k :
  is_split data snk k = true → k ∈ all_nodes_of data snk.
Proof.
  unfold is_split. intros [Hin _]%andb_true_iff.
  apply bool_decide_eq_true in Hin. apply elem_of_all_nodes. tauto.
Qed.

Lemma m_in_lookup k :
  sp_in sp !! k =
  if bool_decide (k ∈ all_nodes_of data snk)
  then Some (facet_in data snk k) else None.
Proof.
  destruct (split_fold_spec data snk (node_caps data)
    {| sp_G := []; sp_in := m0; sp_out := m0; sp_split := [] |} k)
    as (H & _ & _).
  cbn zeta in H. fold sp in H. rewrite H. clear H.
  unfold facet_in. fold (is_split data snk k).
  destruct (is_split data snk k) eqn:Hs.
  - by rewrite bool_decide_eq_true_2 by by apply is_split_all_nodes.
  - cbn [sp_in]. apply identity_map_lookup.
Qed.

Lemma m_out_lookup k :
  sp_out sp !! k =
  if bool_decide (k ∈ all_nodes_of data snk)
  then Some (facet_out data snk k) else None.
Proof.
  destruct (split_fold_spec data snk (node_caps data)
    {| sp_G := []; sp_in := m0; sp_out := m0; sp_split := [] |} k)
    as (_ & H & _).
  cbn zeta in H. fold sp in H. rewrite H. clear H.
  unfold facet_out. fold (is_split data snk k).
  destruct (is_split data snk k) eqn:Hs.
  - by rewrite bool_decide_eq_true_2 by by apply is_split_all_nodes.
  - cbn [sp_out]. apply identity_map_lookup.
Qed.

Lemma sp_G_split_graph : sp_G sp = split_graph data snk.
Proof. unfold sp, split_graph. by apply split_fold_graph. Qed.

Lemma sp_split_built : sp_split sp = built_split data snk.
Proof. unfold sp, built_split. by apply split_fold_graph. Qed.

Lemma edges_loop_ok (es : list edge) (st : edge_state) :
  Forall (λ e, ¬ bad_bounds e) es →
  (∀ e, e ∈ es → e_from e ∈ all_nodes_of data snk
                 ∧ e_to e ∈ all_nodes_of data snk) →
  edges_loop (sp_in sp) (sp_out sp) es st =
  inr (foldl (edge_step data snk) st es).
Proof.
  revert st. induction es as [|e es IH]; intros st Hok Hin; [done|].
  cbn [edges_loop foldl]. inversion Hok as [|? ? Hgood Hok']; subst.
  destruct (cap_lt (upper_of e) (lower_of e - TOLERANCE)) eqn:Hlt.
  { exfalso. by apply Hgood, cap_lt_bad_bounds. }
  destruct (Hin e) as [Hu Hv]; [left|].
  rewrite m_out_lookup, m_in_lookup.
  rewrite !bool_decide_eq_true_2 by done.
  apply IH; [done|]. intros e' He'. apply Hin. by right.
Qed.

Lemma demands_loop_ok (ds : list (string * Q)) (st : DiGraph * Q) :
  (∀ k, k ∈ ds.*1 → k ∈ all_nodes_of data snk) →
  demands_loop (sp_in sp) (sp_out sp) ds st =
  inr (foldl (demand_step data snk) st ds).
Proof.
  revert st. induction ds as [|[v d] ds IH]; intros [G t] Hin; [done|].
  cbn [demands_loop foldl]. unfold demand_step at 2. cbn [fst snd].
  rewrite m_out_lookup, m_in_lookup.
  rewrite !bool_decide_eq_true_2 by (apply Hin; left).
  assert (∀ k, k ∈ ds.*1 → k ∈ all_nodes_of data snk) as Hin'.
  { intros k Hk. apply Hin. by right. }
  destruct (Qgt_b d TOLERANCE); [by apply IH|].
  destruct (Qlt_b d (- TOLERANCE)); by apply IH.
Qed.

Lemma sources_loop_ok (ss : list (string * Q)) (st : DiGraph * Q) :
  (∀ k, k ∈ ss.*1 → k ∈ all_nodes_of data snk) →
  sources_loop (sp_out sp) ss st =
  inr (foldl (source_step data snk) st ss).
Proof.
  revert st. induction ss as [|[s supply] ss IH]; intros [G t] Hin; [done|].
  cbn [sources_loop foldl]. unfold source_step at 2. cbn [fst snd].
  rewrite m_out_lookup. rewrite bool_decide_eq_true_2 by (apply Hin; left).
  apply IH. intros k Hk. apply Hin. by right.
Qed.
End build_facts.

Lemma demand_add_keys (k : string) (x : Q) (d : list (string * Q)) (y : string) :
  y ∈ (demand_add k x d).*1 ↔ y = k ∨ y ∈ d.*1.
Proof. apply dict_set_keys. Qed.

Lemma edges_fold_lo_keys (data : instance) (snk : string) (es : list edge)
    (st : edge_state) (k : string) :
  k ∈ (es_lo (foldl (edge_step data snk) st es)).*1 →
  k ∈ (es_lo st).*1 ∨ ∃ e, e ∈ es ∧ (k = e_from e ∨ k = e_to e).
Proof.
  revert st. induction es as [|e es IH]; intros st; cbn [foldl]; [auto|].
  intros [Hk|(e' & He' & Hk)]%IH.
  - cbn [edge_step es_lo] in Hk. rewrite !demand_add_keys in Hk.
    destruct Hk as [->|[->|Hk]]; [| |by left]; right; exists e;
      (split; [left | tauto]).
  - right. exists e'. split; [by right | done].
Qed.

Lemma edges_fold_orig (data : instance) (snk : string) (es : list edge)
    (st : edge_state) :
  es_orig (foldl (edge_step data snk) st es) =
  es_orig st ++ map (record_of data snk) es.
Proof.
  revert st. induction es as [|e es IH]; intros st; cbn [foldl map].
  - by rewrite app_nil_r.
  - rewrite IH. cbn [edge_step es_orig]. by rewrite <- app_assoc.
Qed.

Lemma original_edges_built (order : set_order) (data : instance) (snk : string) :
  original_edges (built_data order data snk) =
  map (record_of data snk) (edges data).
Proof. cbn [built_data original_edges]. apply edges_fold_orig. Qed.

Lemma facet_in_sink (data : instance) (snk : string) :
  facet_in data snk snk = snk.
Proof.
  unfold facet_in, is_split. rewrite (bool_decide_eq_true_2 (snk = snk)) by done.
  by rewrite andb_false_r.
Qed.

Theorem build_ok (order : set_order) (data : instance) (snk : string) :
  sink_of data = Some snk →
  Forall (λ e, ¬ bad_bounds e) (edges data) →
  build_transformed_graph order data =
  inr (built_graph data snk, built_data order data snk).
Proof.
  intros Hsink Hok. unfold build_transformed_graph. rewrite Hsink.
  rewrite edges_loop_ok; [|done|].
  2:{ intros e He. split; apply elem_of_all_nodes; right; right; left; eauto. }
  rewrite sp_G_split_graph. fold (edges_state data snk).
  rewrite demands_loop_ok.
  2:{ intros k [Hk|(e & He & Hk)]%edges_fold_lo_keys; [inversion Hk|].
      apply elem_of_all_nodes. right; right; left; eauto. }
  fold (demands_state data snk).
  destruct (demands_state data snk) as [G2 tld] eqn:Hd.
  rewrite sources_loop_ok.
  2:{ intros k Hk. apply elem_of_all_nodes. by left. }
  change G2 with (G2, tld).1. rewrite <- Hd. fold (sources_state data snk).
  destruct (sources_state data snk) as [G3 tot] eqn:Hs.
  rewrite m_in_lookup. rewrite bool_decide_eq_true_2.
  2:{ apply elem_of_all_nodes. tauto. }
  rewrite sp_split_built.
  unfold built_graph, built_data. rewrite Hs, Hd. done.
Qed.

(** ** The orchestrator *)

(** C1: on an instance that builds and is not the trivial zero-demand case,
    when the oracle returns a maximum flow, the status is "ok" exactly when
    [max_flow >= total_expected_flow - ε], and otherwise the result is
    "infeasible" and carries a certificate. *)
Theorem status_ok_iff_max_flow_reaches_expected
    (order : set_order) (o : oracle) (data : instance)
    (G : DiGraph) (bd : build_data) (max_flow : Q) (flow_dict : flow_assignment) :
  build_transformed_graph order data = inr (G, bd) →
  ¬ total_expected_flow bd < TOLERANCE →
  maximum_flow o G s_super t_super = FlowOk max_flow flow_dict →
  let r := run o (solve_belts order data) in
  (status_of r = StatusOk ↔ total_expected_flow bd - TOLERANCE <= max_flow) ∧
  (¬ total_expected_flow bd - TOLERANCE <= max_flow →
   ∃ c, r = Infeasible c).
Proof.
  intros Hb Hnt Hmf. cbn zeta. unfold solve_belts. rewrite Hb.
  destruct (Qlt_b (total_expected_flow bd) TOLERANCE) eqn:Htriv.
  { apply Qlt_b_true in Htriv. done. }
  cbn [run]. rewrite Hmf.
  destruct (Qlt_b max_flow (total_expected_flow bd - TOLERANCE)) eqn:Hlt.
  - apply Qlt_b_true in Hlt. cbn [format_infeasible run status_of].
    destruct (minimum_cut o G s_super t_super) as [cv re un|];
      cbn [run status_of]; (split; [split; [done|]|eauto]);
      intros Hle; exfalso; by apply (Qlt_not_le _ _ Hlt).
  - apply Qlt_b_false in Hlt. cbn [run format_success status_of].
    split; [done|]. intros Hn. done.
Qed.

(** ** The reconstructor *)

Lemma flows_loop_spec (flow_dict : flow_assignment) (rs : list orig_edge)
    (acc : list flow_entry) :
  flows_loop flow_dict rs acc =
  acc ++ map (flow_entry_of flow_dict)
           (filter (λ r, TOLERANCE < edge_flow flow_dict r) rs).
Proof.
  revert acc. induction rs as [|r rs IH]; intros acc; cbn [flows_loop].
  - by rewrite app_nil_r.
  - destruct (Qgt_b (edge_flow flow_dict r) TOLERANCE) eqn:Hgt.
    + apply Qgt_b_true in Hgt. rewrite IH, filter_cons_True by done.
      cbn [map]. by rewrite <- app_assoc.
    + apply Qgt_b_false in Hgt. rewrite IH, filter_cons_False; [done|].
      by apply Qle_not_lt.
Qed.

Lemma edge_flow_assigned (flow_dict : flow_assignment) (r : orig_edge) :
  edge_flow flow_dict r = default 0 (assigned flow_dict (oe_mapped r)) + oe_lo r.
Proof.
  unfold edge_flow, get_flow, assigned.
  destruct (flow_dict !! (oe_mapped r).1) as [row|]; cbn; [|done].
  by destruct (row !! (oe_mapped r).2).
Qed.

(** C3: in a successful solve, the [flows] list is computed from the flow
    assignment of the solve: the one that [nx.maximum_flow] returned, or
    the empty one on the short-circuit of the trivial instance, where no
    flow was computed.  Each recorded edge gets the flow of its
    transformed edge in that assignment (0 when the assignment has no
    entry for it) plus its lower bound, and the list contains, in order,
    exactly the edges whose value exceeds ε. *)
Theorem reported_flows_are_shifted_by_lower
    (order : set_order) (o : oracle) (data : instance)
    (G : DiGraph) (bd : build_data) (m : Q) (fl : list flow_entry) :
  build_transformed_graph order data = inr (G, bd) →
  run o (solve_belts order data) = Ok m fl →
  ∃ flow_dict,
    ((total_expected_flow bd < TOLERANCE ∧ flow_dict = ∅) ∨
     (¬ total_expected_flow bd < TOLERANCE ∧
      ∃ mf, maximum_flow o G s_super t_super = FlowOk mf flow_dict)) ∧
    fl = map (flow_entry_of flow_dict)
           (filter (λ r, TOLERANCE < edge_flow flow_dict r) (original_edges bd)) ∧
    (∀ r, r ∈ original_edges bd →
       edge_flow flow_dict r
         = default 0 (assigned flow_dict (oe_mapped r)) + oe_lo r ∧
       (flow_entry_of flow_dict r ∈ fl ↔ TOLERANCE < edge_flow flow_dict r)).
Proof.
  intros Hb Hrun. unfold solve_belts in Hrun. rewrite Hb in Hrun.
  assert (∀ fd, fl = flows_loop fd (original_edges bd) [] →
    fl = map (flow_entry_of fd)
           (filter (λ r, TOLERANCE < edge_flow fd r) (original_edges bd)) ∧
    (∀ r, r ∈ original_edges bd →
       edge_flow fd r = default 0 (assigned fd (oe_mapped r)) + oe_lo r ∧
       (flow_entry_of fd r ∈ fl ↔ TOLERANCE < edge_flow fd r))) as Hspec.
  { intros fd ->. rewrite flows_loop_spec. cbn [app]. split; [done|].
    intros r Hr. split; [apply edge_flow_assigned|]. split.
    - intros (r' & Heq & Hr')%list_elem_of_fmap.
      apply list_elem_of_filter in Hr' as [Hgt _].
      apply (f_equal f_flow) in Heq. cbn [f_flow flow_entry_of] in Heq.
      by rewrite Heq.
    - intros Hgt. apply list_elem_of_fmap. exists r. split; [done|].
      by apply list_elem_of_filter. }
  destruct (Qlt_b (total_expected_flow bd) TOLERANCE) eqn:Htriv.
  - apply Qlt_b_true in Htriv.
    cbn [run format_success] in Hrun. injection Hrun as _ <-.
    exists ∅. split; [by left|]. by apply Hspec.
  - apply Qlt_b_false in Htriv. cbn [run] in Hrun.
    destruct (maximum_flow o G s_super t_super) as [mf fd| |] eqn:Hmf;
      cbn [run] in Hrun; try discriminate.
    destruct (Qlt_b mf (total_expected_flow bd - TOLERANCE)).
    + cbn [format_infeasible run] in Hrun.
      destruct (minimum_cut o G s_super t_super); cbn [run] in Hrun;
        discriminate.
    + cbn [run format_success] in Hrun. injection Hrun as _ <-.
      exists fd. split; [|by apply Hspec].
      right. split; [by apply Qle_not_lt | eauto].
Qed.

(** ** The trivial instance *)

Lemma TOLERANCE_pos : 0 < TOLERANCE.
Proof. unfold TOLERANCE. lra. Qed.

Lemma dict_set_elem {V : Type} (d : list (string * V)) (k : string) (v : V)
    (p : string * V) :
  p ∈ dict_set k v d → p = (k, v) ∨ p ∈ d.
Proof.
  induction d as [|[k0 v0] d IH]; cbn [dict_set].
  - intros ->%list_elem_of_singleton. by left.
  - destruct (decide (k = k0)).
    + intros [->|?]%elem_of_cons; [by left | right; by right].
    + intros [->|Hp]%elem_of_cons; [right; left|].
      destruct (IH Hp); [by left | right; by right].
Qed.

Lemma demand_add_zero (k : string) (x : Q) (d : list (string * Q)) :
  x == 0 → Forall zero_balance d → Forall zero_balance (demand_add k x d).
Proof.
  intros Hx Hd. apply Forall_forall. intros p Hp.
  apply dict_set_elem in Hp as [->|Hp].
  - unfold zero_balance. cbn [snd]. destruct (dict_get k d) as [y|] eqn:Hy.
    + apply dict_get_Some_elem in Hy.
      rewrite Forall_forall in Hd. specialize (Hd _ Hy).
      unfold zero_balance in Hd. cbn in *. lra.
    + cbn. lra.
  - rewrite Forall_forall in Hd. by apply Hd.
Qed.

Lemma edges_fold_lo_zero (data : instance) (snk : string) (es : list edge)
    (st : edge_state) :
  Forall (λ e, lower_of e == 0) es →
  Forall zero_balance (es_lo st) →
  Forall zero_balance (es_lo (foldl (edge_step data snk) st es)).
Proof.
  revert st. induction es as [|e es IH]; intros st Hes Hst; [done|].
  cbn [foldl]. inversion Hes as [|? ? He Hes']; subst.
  apply IH; [done|]. cbn [edge_step es_lo].
  apply demand_add_zero; [done|]. apply demand_add_zero; [lra | done].
Qed.

Lemma demands_fold_zero (data : instance) (snk : string)
    (ds : list (string * Q)) (st : DiGraph * Q) :
  Forall zero_balance ds → foldl (demand_step data snk) st ds = st.
Proof.
  revert st. induction ds as [|[v d] ds IH]; intros st Hds; [done|].
  cbn [foldl]. inversion Hds as [|? ? Hd Hds']; subst.
  unfold zero_balance in Hd. cbn [snd] in Hd.
  pose proof TOLERANCE_pos as Hpos.
  unfold demand_step at 2. cbn [snd].
  replace (Qgt_b d TOLERANCE) with false
    by (symmetry; apply Qgt_b_false; lra).
  replace (Qlt_b d (- TOLERANCE)) with false
    by (symmetry; apply Qlt_b_false; lra).
  by apply IH.
Qed.

Lemma flows_loop_none (flow_dict : flow_assignment) (rs : list orig_edge)
    (acc : list flow_entry) :
  Forall (λ r, edge_flow flow_dict r <= TOLERANCE) rs →
  flows_loop flow_dict rs acc = acc.
Proof.
  revert acc. induction rs as [|r rs IH]; intros acc Hrs; [done|].
  cbn [flows_loop]. inversion Hrs as [|? ? Hr Hrs']; subst.
  apply Qgt_b_false in Hr. rewrite Hr. by apply IH.
Qed.

(** C7: an instance with a sink, no source, every lower bound 0 and every
    upper bound non-negative builds with [total_expected_flow] below the
    tolerance; the solve returns at once, without a call to the oracle,
    with status "ok", [max_flow_per_min = 0] and no flows. *)
Theorem trivial_instance_short_circuits
    (order : set_order) (data : instance) (snk : string) :
  sink_of data = Some snk →
  sources data = [] →
  (∀ e, e ∈ edges data → lower_of e == 0) →
  (∀ e hi, e ∈ edges data → e_upper e = Some hi → 0 <= hi) →
  (∃ G bd, build_transformed_graph order data = inr (G, bd)
           ∧ total_expected_flow bd < TOLERANCE) ∧
  solve_belts order data = Ret (Ok 0 []) ∧
  (∀ o, calls o (solve_belts order data) = []).
Proof.
  intros Hsink Hsrc Hlo Hhi.
  pose proof TOLERANCE_pos as Hpos.
  assert (Forall (λ e, ¬ bad_bounds e) (edges data)) as Hok.
  { apply Forall_forall. intros e He. unfold bad_bounds.
    destruct (e_upper e) as [hi|] eqn:Hu; [|tauto].
    specialize (Hlo e He). specialize (Hhi e hi He Hu). lra. }
  pose proof (build_ok order data snk Hsink Hok) as Hb.
  assert ((demands_state data snk).2 = 0) as Hd.
  { unfold demands_state. rewrite demands_fold_zero; [done|].
    apply edges_fold_lo_zero; [|constructor].
    apply Forall_forall. exact Hlo. }
  assert ((sources_state data snk).2 = 0) as Hs.
  { unfold sources_state. by rewrite Hsrc. }
  assert (total_expected_flow (built_data order data snk) < TOLERANCE) as Hlt.
  { cbn [built_data total_expected_flow]. rewrite Hd, Hs. lra. }
  assert (solve_belts order data = Ret (Ok 0 [])) as Hsolve.
  { unfold solve_belts. rewrite Hb.
    apply Qlt_b_true in Hlt. rewrite Hlt.
    unfold format_success. rewrite flows_loop_none; [done|].
    rewrite original_edges_built. apply Forall_forall.
    intros r (e & -> & He)%list_elem_of_fmap.
    unfold edge_flow, get_flow. rewrite lookup_empty.
    cbn [record_of oe_lo]. specialize (Hlo e He). lra. }
  split; [eauto|]. split; [done|]. intros o. by rewrite Hsolve.
Qed.

(** ** Strings: order and suffixes *)

Lemma ascii_compare_refl (c : Ascii.ascii) : Ascii.compare c c = Eq.
Proof. unfold Ascii.compare. apply N.compare_refl. Qed.

Lemma ascii_compare_trans (c : comparison) (a b d : Ascii.ascii) :
  Ascii.compare a b = c → Ascii.compare b d = c → Ascii.compare a d = c.
Proof.
  destruct c; unfold Ascii.compare.
  - rewrite !N.compare_eq_iff. congruence.
  - rewrite !N.compare_lt_iff. apply N.lt_trans.
  - rewrite !N.compare_gt_iff. intros H1 H2. by apply (N.lt_trans _ _ _ H2).
Qed.

Lemma str_le_cons (a b : Ascii.ascii) (s t : string) :
  str_le (String a s) (String b t) ↔
  Ascii.compare a b = Lt ∨ (a = b ∧ str_le s t).
Proof.
  unfold str_le, String.leb. cbn [String.compare].
  destruct (Ascii.compare a b) eqn:Hab.
  - apply Ascii.compare_eq_iff in Hab as ->. split; [auto|].
    intros [?|[_ ?]]; done.
  - split; auto.
  - split; [done|]. intros [?|[-> _]]; [done|].
    by rewrite ascii_compare_refl in Hab.
Qed.

#[global] Instance str_le_trans : Transitive str_le.
Proof.
  intros s. induction s as [|a s IH]; intros [|b t] [|d u]; try done.
  rewrite !str_le_cons. intros [Hab|[-> Hst]] [Hbd|[-> Htu]].
  - left. by apply (ascii_compare_trans Lt a b d).
  - by left.
  - by left.
  - right. split; [done|]. by apply (IH t u).
Qed.

#[global] Instance str_le_total : Total str_le.
Proof. intros s t. apply String.leb_total. Qed.

#[global] Instance str_le_antisym : AntiSymm (=) str_le.
Proof. intros s t. apply String.leb_antisym. Qed.

Lemma append_cons (c : Ascii.ascii) (s t : string) :
  String c s +:+ t = String c (s +:+ t).
Proof. done. Qed.

Lemma append_length (s t : string) :
  String.length (s +:+ t) = (String.length s + String.length t)%nat.
Proof.
  induction s as [|c s IH]; [done|].
  rewrite append_cons. cbn [String.length]. by rewrite IH.
Qed.

Lemma append_inj_l (s1 s2 t : string) : s1 +:+ t = s2 +:+ t → s1 = s2.
Proof.
  revert s2. induction s1 as [|c s1 IH]; intros [|d s2] Heq; [done| | |].
  - apply (f_equal String.length) in Heq.
    rewrite !append_length in Heq. cbn [String.length] in Heq. lia.
  - apply (f_equal String.length) in Heq.
    rewrite !append_length in Heq. cbn [String.length] in Heq. lia.
  - rewrite !append_cons in Heq. injection Heq as -> Heq.
    f_equal. by apply IH.
Qed.

Lemma last_char_append (s t : string) :
  t ≠ EmptyString → last_char (s +:+ t) = last_char t.
Proof.
  intros Ht. induction s as [|c s IH]; [done|].
  rewrite append_cons. cbn [last_char].
  destruct (s +:+ t) eqn:Hst; [|done].
  destruct s; [|done]. cbn in Hst. done.
Qed.

Lemma v_in_of_inj (a b : string) : v_in_of a = v_in_of b → a = b.
Proof. apply append_inj_l. Qed.

Lemma v_out_of_inj (a b : string) : v_out_of a = v_out_of b → a = b.
Proof. apply append_inj_l. Qed.

Lemma v_in_of_ne_out (a b : string) : v_in_of a ≠ v_out_of b.
Proof.
  intros Heq. apply (f_equal last_char) in Heq.
  unfold v_in_of, v_out_of in Heq. rewrite !last_char_append in Heq; done.
Qed.

Lemma v_out_of_ne_super (a : string) :
  v_out_of a ≠ s_super ∧ v_out_of a ≠ t_super.
Proof.
  split; intros Heq; apply (f_equal last_char) in Heq;
    unfold v_out_of in Heq; rewrite last_char_append in Heq; done.
Qed.

Lemma v_in_of_ne_super (a : string) :
  v_in_of a ≠ s_super ∧ v_in_of a ≠ t_super.
Proof.
  split; intros Heq; apply (f_equal last_char) in Heq;
    unfold v_in_of in Heq; rewrite last_char_append in Heq; done.
Qed.

(** ** Inversion of a build and of an infeasible solve *)

Lemma build_inv (order : set_order) (data : instance)
    (G : DiGraph) (bd : build_data) :
  build_transformed_graph order data = inr (G, bd) →
  ∃ snk, sink_of data = Some snk
         ∧ Forall (λ e, ¬ bad_bounds e) (edges data)
         ∧ G = built_graph data snk ∧ bd = built_data order data snk.
Proof.
  intros Hb. destruct (sink_of data) as [snk|] eqn:Hsink.
  2:{ unfold build_transformed_graph in Hb. by rewrite Hsink in Hb. }
  exists snk. split; [done|].
  destruct (decide (Exists bad_bounds (edges data))) as [Hex|Hnex].
  - exfalso. unfold build_transformed_graph in Hb. rewrite Hsink in Hb.
    edestruct edges_loop_bad as [e He]; [exact Hex|].
    rewrite He in Hb. discriminate.
  - apply Forall_Exists_neg in Hnex. split; [done|].
    rewrite (build_ok order data snk Hsink Hnex) in Hb. by simplify_eq.
Qed.

Lemma solve_infeasible_inv (order : set_order) (o : oracle) (data : instance)
    (c : certificate) :
  run o (solve_belts order data) = Infeasible c →
  ∃ G bd max_flow flow_dict reachable unreachable,
    build_transformed_graph order data = inr (G, bd)
    ∧ maximum_flow o G s_super t_super = FlowOk max_flow flow_dict
    ∧ max_flow < total_expected_flow bd - TOLERANCE
    ∧ ((∃ cv, minimum_cut o G s_super t_super = CutOk cv reachable unreachable)
       ∨ (minimum_cut o G s_super t_super = CutNetworkXError
          ∧ reachable = {[ s_super ]}
          ∧ unreachable = list_to_set G.*1 ∖ {[ s_super ]}))
    ∧ c = certify order reachable unreachable
            (total_expected_flow bd - max_flow) bd.
Proof.
  unfold solve_belts.
  destruct (build_transformed_graph order data) as [e|[G bd]] eqn:Hb;
    [done|].
  destruct (Qlt_b (total_expected_flow bd) TOLERANCE); [done|].
  cbn [run].
  destruct (maximum_flow o G s_super t_super) as [mf fd| |] eqn:Hmf;
    [|done|done].
  destruct (Qlt_b mf (total_expected_flow bd - TOLERANCE)) eqn:Hlt; [|done].
  apply Qlt_b_true in Hlt. cbn [format_infeasible run].
  destruct (minimum_cut o G s_super t_super) as [cv re un|] eqn:Hmc;
    cbn [run]; intros [= <-].
  - exists G, bd, mf, fd, re, un. eauto 10.
  - exists G, bd, mf, fd, {[ s_super ]}, (list_to_set G.*1 ∖ {[ s_super ]}).
    eauto 10.
Qed.

(** ** The loops of the certifier *)

Lemma cut_reachable_loop_spec (nm : gmap string string) (ns : list string)
    (x : string) :
  x ∈ cut_reachable_loop nm ns ↔
  ∃ n, n ∈ ns ∧ nm !! n = Some x ∧ n ≠ s_super ∧ n ≠ t_super.
Proof.
  unfold cut_reachable_loop.
  assert (∀ acc : gset string,
    x ∈ foldl (λ acc n,
                 match nm !! n with
                 | Some original =>
                     if bool_decide (n ≠ s_super) && bool_decide (n ≠ t_super)
                     then acc ∪ {[original]} else acc
                 | None => acc
                 end) acc ns ↔
    x ∈ acc ∨ ∃ n, n ∈ ns ∧ nm !! n = Some x ∧ n ≠ s_super ∧ n ≠ t_super)
    as Hgen.
  { induction ns as [|n ns IH]; intros acc; cbn [foldl].
    - split; [auto | intros [?|(n & Hn & _)]; [done | inversion Hn]].
    - rewrite IH. clear IH. split.
      + intros [Hacc|(n' & Hn' & ?)].
        * destruct (nm !! n) as [y|] eqn:Hy; [|by left].
          destruct (bool_decide (n ≠ s_super)) eqn:H1;
            destruct (bool_decide (n ≠ t_super)) eqn:H2;
            cbn [andb] in Hacc; try by left.
          apply elem_of_union in Hacc as [?|Hx%elem_of_singleton];
            [by left|]. subst x.
          apply bool_decide_eq_true in H1, H2.
          right. exists n. split; [left | done].
        * right. exists n'. split; [by right | done].
      + intros [Hacc|(n' & Hn' & Hx & H1 & H2)].
        * left. destruct (nm !! n); [|done].
          destruct (bool_decide (n ≠ s_super) && bool_decide (n ≠ t_super));
            [|done].
          apply elem_of_union. by left.
        * apply elem_of_cons in Hn' as [->|Hn'].
          -- left. rewrite Hx. rewrite !bool_decide_eq_true_2 by done.
             cbn [andb]. apply elem_of_union. right. by apply elem_of_singleton.
          -- right. eauto. }
  rewrite Hgen. split; [intros [?|?]; [set_solver | done] | auto].
Qed.

Lemma tight_edges_loop_spec (reachable unreachable : gset string)
    (orig : list orig_edge) :
  tight_edges_loop reachable unreachable orig =
  map oe_orig
    (filter (λ r, crosses reachable unreachable (oe_mapped r)) orig).
Proof.
  unfold tight_edges_loop.
  assert (∀ acc,
    foldl (λ acc r,
             if bool_decide ((oe_mapped r).1 ∈ reachable)
                && bool_decide ((oe_mapped r).2 ∈ unreachable)
             then acc ++ [oe_orig r] else acc) acc orig =
    acc ++ map oe_orig
             (filter (λ r, crosses reachable unreachable (oe_mapped r)) orig))
    as Hgen; [|apply Hgen].
  induction orig as [|r orig IH]; intros acc; cbn [foldl].
  - by rewrite app_nil_r.
  - rewrite IH. destruct (decide (crosses reachable unreachable (oe_mapped r)))
      as [Hc|Hc].
    + rewrite filter_cons_True by done. destruct Hc as [H1 H2].
      rewrite !bool_decide_eq_true_2 by done. cbn [andb map].
      by rewrite <- app_assoc.
    + rewrite filter_cons_False by done.
      destruct (bool_decide ((oe_mapped r).1 ∈ reachable)) eqn:H1;
        destruct (bool_decide ((oe_mapped r).2 ∈ unreachable)) eqn:H2;
        cbn [andb]; try done.
      apply bool_decide_eq_true in H1, H2. exfalso. by apply Hc.
Qed.

Lemma tight_nodes_loop_spec (reachable unreachable : gset string)
    (split : list (string * (string * string))) :
  tight_nodes_loop reachable unreachable split =
  map fst (filter (λ p, crosses reachable unreachable p.2) split).
Proof.
  unfold tight_nodes_loop.
  assert (∀ acc,
    foldl (λ acc '(v, (v_in, v_out)),
             if bool_decide (v_in ∈ reachable)
                && bool_decide (v_out ∈ unreachable)
             then acc ++ [v] else acc) acc split =
    acc ++ map fst (filter (λ p, crosses reachable unreachable p.2) split))
    as Hgen; [|apply Hgen].
  induction split as [|[v [vi vo]] split IH]; intros acc; cbn [foldl].
  - by rewrite app_nil_r.
  - rewrite IH.
    destruct (decide (crosses reachable unreachable (vi, vo))) as [Hc|Hc].
    + rewrite filter_cons_True by done. destruct Hc as [H1 H2].
      cbn [fst snd] in H1, H2.
      rewrite !bool_decide_eq_true_2 by done. cbn [andb map fst].
      by rewrite <- app_assoc.
    + rewrite filter_cons_False by done.
      destruct (bool_decide (vi ∈ reachable)) eqn:H1;
        destruct (bool_decide (vo ∈ unreachable)) eqn:H2;
        cbn [andb]; try done.
      apply bool_decide_eq_true in H1, H2. exfalso. by apply Hc.
Qed.

(** ** [sorted] *)

Lemma sorted_perm (l : list string) : sorted l ≡ₚ l.
Proof. apply merge_sort_Permutation. Qed.

Lemma sorted_StronglySorted (l : list string) : StronglySorted str_le (sorted l).
Proof. apply StronglySorted_merge_sort; apply _. Qed.

Lemma sorted_set_NoDup (order : set_order) (S : gset string) :
  NoDup (sorted (order S)).
Proof. rewrite sorted_perm, (iter_perm order S). apply NoDup_elements. Qed.

Lemma elem_of_sorted_set (order : set_order) (S : gset string) (x : string) :
  x ∈ sorted (order S) ↔ x ∈ S.
Proof. rewrite sorted_perm, (iter_perm order S). apply elem_of_elements. Qed.


(** ** The certifier *)

(** C8: the certifier returns a certificate whatever the oracle does; when
    [nx.minimum_cut] raises, the certificate is the one computed from
    [reachable = {s_super}] and all other nodes of the graph as
    unreachable. *)
Theorem certifier_always_succeeds (order : set_order) (o : oracle)
    (G : DiGraph) (max_flow expected : Q) (bd : build_data) :
  let r := run o (format_infeasible order G max_flow expected bd) in
  (∃ c, r = Infeasible c) ∧
  (minimum_cut o G s_super t_super = CutNetworkXError →
   r = Infeasible (certify order {[ s_super ]}
                     (list_to_set G.*1 ∖ {[ s_super ]})
                     (expected - max_flow) bd)) ∧
  (∀ cv reachable unreachable,
     minimum_cut o G s_super t_super = CutOk cv reachable unreachable →
     r = Infeasible (certify order reachable unreachable
                       (expected - max_flow) bd)).
Proof.
  cbn zeta. unfold format_infeasible. cbn [run].
  destruct (minimum_cut o G s_super t_super) as [cv re un|]; cbn [run].
  - split; [eauto|]. split; [done|]. by intros ? ? ? [= _ <- <-].
  - split; [eauto|]. split; [done|]. done.
Qed.

(** C6 (amended): in an infeasible result, [cut_reachable] and
    [tight_nodes] have no duplicates and are sorted by identifier;
    [tight_edges] lists, in the order of the input edges, one entry per
    recorded edge that crosses the cut. *)
Theorem certificate_sets_sorted (order : set_order) (o : oracle)
    (data : instance) (c : certificate) :
  run o (solve_belts order data) = Infeasible c →
  (NoDup (cut_reachable c) ∧ StronglySorted str_le (cut_reachable c)) ∧
  (NoDup (tight_nodes c) ∧ StronglySorted str_le (tight_nodes c)) ∧
  ∃ G bd reachable unreachable,
    build_transformed_graph order data = inr (G, bd) ∧
    partition_used o G reachable unreachable ∧
    map oe_orig (original_edges bd)
      = map (λ e, (e_from e, e_to e)) (edges data) ∧
    tight_edges c =
      map oe_orig
        (filter (λ r, crosses reachable unreachable (oe_mapped r))
           (original_edges bd)).
Proof.
  intros (G & bd & mf & fd & re & un & Hb & _ & _ & Hcut & ->)%solve_infeasible_inv.
  cbn [certify cut_reachable tight_nodes tight_edges].
  split; [split; [apply sorted_set_NoDup | apply sorted_StronglySorted]|].
  split; [split; [apply sorted_set_NoDup | apply sorted_StronglySorted]|].
  exists G, bd, re, un. split; [done|]. split; [done|].
  split; [|apply tight_edges_loop_spec].
  apply build_inv in Hb as (snk & _ & _ & _ & ->).
  rewrite original_edges_built, map_map. done.
Qed.

(** C6, counterexample: on [three_belts] the certificate lists the
    parallel belt twice and the belts in input order, not sorted. *)
Lemma tight_edges_not_sorted_counterexample :
  ∃ c, run three_belts_nx (solve_belts elements_order three_belts)
         = Infeasible c
       ∧ tight_edges c = [("B", "T"); ("A", "T"); ("B", "T")]%string
       ∧ ¬ NoDup (tight_edges c)
       ∧ ¬ Sorted edge_le (tight_edges c).
Proof.
  eexists. split; [vm_compute; reflexivity|].
  cbn [tight_edges]. split; [done|]. split.
  - intros Hnd. inversion Hnd as [|? ? Hnotin _]; subst.
    apply Hnotin. right. left.
  - intros Hs. inversion Hs as [|? ? _ Hhd]; subst.
    inversion Hhd as [|? ? [Hle _]]; subst. cbn in Hle. done.
Qed.

(** ** The sink edge *)

Lemma sources_fold_total (data : instance) (snk : string)
    (ss : list (string * Q)) (st : DiGraph * Q) :
  (foldl (source_step data snk) st ss).2 = foldl (λ t s, t + s.2) st.2 ss.
Proof.
  revert st. induction ss as [|s ss IH]; intros st; [done|].
  cbn [foldl]. by rewrite IH.
Qed.

(** C5 (amended): the edge from the sink's in-facet (the sink itself) to
    the supersink has capacity [total_supply], the sum of the supplies,
    when [total_supply > ε], and is unbounded otherwise. *)
Theorem sink_edge_capacity (order : set_order) (data : instance)
    (G : DiGraph) (bd : build_data) :
  build_transformed_graph order data = inr (G, bd) →
  ∃ snk, sink_of data = Some snk
    ∧ facet_in data snk snk = snk
    ∧ total_supply bd = foldl (λ t s, t + s.2) 0 (sources data)
    ∧ edge_capacity G snk t_super =
        Some (if decide (TOLERANCE < total_supply bd)
              then Finite (total_supply bd) else Unbounded).
Proof.
  intros (snk & Hsink & _ & -> & ->)%build_inv.
  exists snk. split; [done|]. split; [apply facet_in_sink|].
  split.
  - cbn [built_data total_supply]. unfold sources_state.
    by rewrite sources_fold_total.
  - unfold built_graph. rewrite facet_in_sink, edge_capacity_add_edge_eq.
    cbn [built_data total_supply]. unfold sink_cap, Qgt_b.
    destruct (Qlt_le_dec TOLERANCE (sources_state data snk).2) as [Hlt|Hle].
    + by rewrite decide_True.
    + rewrite decide_False; [done|]. by apply Qle_not_lt.
Qed.

(** C5, counterexample: the only source of [idle_source] has the finite
    supply 0, and the sink edge is unbounded, not of capacity 0. *)
Lemma sink_edge_idle_source_counterexample :
  ∃ G bd, build_transformed_graph elements_order idle_source = inr (G, bd)
    ∧ total_supply bd = 0
    ∧ edge_capacity G "B" t_super = Some Unbounded
    ∧ ¬ sink_edge_as_specified idle_source "B" G bd.
Proof.
  do 2 eexists. split; [vm_compute; reflexivity|].
  split; [reflexivity|]. split; [reflexivity|].
  intros [Hfin _]. specialize (Hfin ltac:(done)). vm_compute in Hfin. done.
Qed.

(** ** The split registry and the reverse map *)

Lemma built_split_lookup (data : instance) (snk : string) (w : string) :
  dict_get w (built_split data snk) =
  if is_split data snk w then Some (v_in_of w, v_out_of w) else None.
Proof.
  destruct (split_fold_spec data snk (node_caps data)
    {| sp_G := []; sp_in := ∅; sp_out := ∅; sp_split := [] |} w)
    as (_ & _ & H).
  exact H.
Qed.

Lemma built_split_NoDup (data : instance) (snk : string) :
  NoDup (built_split data snk).*1.
Proof. apply split_fold_NoDup. constructor. Qed.

Lemma built_split_elem (data : instance) (snk : string)
    (w wi wo : string) :
  (w, (wi, wo)) ∈ built_split data snk ↔
  is_split data snk w = true ∧ wi = v_in_of w ∧ wo = v_out_of w.
Proof.
  split.
  - intros Hin. apply dict_get_elem_NoDup in Hin; [|apply built_split_NoDup].
    rewrite built_split_lookup in Hin.
    destruct (is_split data snk w); by simplify_eq.
  - intros (Hs & -> & ->). apply dict_get_Some_elem.
    by rewrite built_split_lookup, Hs.
Qed.

Lemma node_map_fold_other (split : list (string * (string * string)))
    (m : gmap string string) (k : string) :
  (∀ w wi wo, (w, (wi, wo)) ∈ split → k ≠ wi ∧ k ≠ wo) →
  foldl (λ m '(v, (v_in, v_out)), <[v_out := v]> (<[v_in := v]> m)) m split
    !! k = m !! k.
Proof.
  revert m. induction split as [|[w [wi wo]] split IH]; intros m Hk; [done|].
  cbn [foldl]. rewrite IH.
  - destruct (Hk w wi wo) as [? ?]; [left|].
    by rewrite !lookup_insert_ne.
  - intros w' wi' wo' Hin. apply (Hk w' wi' wo'). by right.
Qed.

Lemma node_map_fold_facet (split : list (string * (string * string)))
    (m : gmap string string) (w : string) :
  (∀ w' wi wo, (w', (wi, wo)) ∈ split → wi = v_in_of w' ∧ wo = v_out_of w') →
  w ∈ split.*1 →
  let m' := foldl (λ m '(v, (v_in, v_out)), <[v_out := v]> (<[v_in := v]> m))
              m split in
  m' !! v_in_of w = Some w ∧ m' !! v_out_of w = Some w.
Proof.
  cbn zeta. revert w.
  induction split as [|[w' [wi wo]] split IH] using rev_ind; intros w Hst Hw.
  { inversion Hw. }
  rewrite foldl_app. cbn [foldl].
  destruct (Hst w' wi wo) as [-> ->]; [apply elem_of_app; right; left|].
  destruct (decide (w = w')) as [->|Hne].
  - split.
    + rewrite lookup_insert_ne by (apply not_eq_sym, v_in_of_ne_out).
      apply lookup_insert_eq.
    + apply lookup_insert_eq.
  - assert (w ∈ split.*1) as Hw'.
    { rewrite fmap_app, elem_of_app in Hw. destruct Hw as [?|Hw]; [done|].
      apply list_elem_of_singleton in Hw. done. }
    destruct (IH w) as [IH1 IH2]; [|done|].
    { intros w0 wi0 wo0 Hin. apply (Hst w0 wi0 wo0). apply elem_of_app. by left. }
    split.
    + rewrite lookup_insert_ne by (apply not_eq_sym, v_in_of_ne_out).
      rewrite lookup_insert_ne; [done|].
      intros Heq. by apply v_in_of_inj in Heq.
    + rewrite lookup_insert_ne.
      2:{ intros Heq. by apply v_out_of_inj in Heq. }
      rewrite lookup_insert_ne by apply v_in_of_ne_out. done.
Qed.

Lemma reserved_false (data : instance) (snk : string) (n : string) :
  reserved data snk n = false →
  n ≠ s_super ∧ n ≠ t_super ∧
  ∀ w, is_split data snk w = true → n ≠ v_in_of w ∧ n ≠ v_out_of w.
Proof.
  unfold reserved. intros [[H1 H2]%orb_false_iff H3]%orb_false_iff.
  apply bool_decide_eq_false in H1, H2. split; [done|]. split; [done|].
  intros w Hw.
  assert (w ∈ (node_caps data).*1) as Hin.
  { unfold is_split in Hw. apply andb_true_iff in Hw as [Hw _].
    by apply bool_decide_eq_true in Hw. }
  assert (is_split data snk w
          && (bool_decide (n = v_in_of w) || bool_decide (n = v_out_of w))
          = false) as Hf.
  { destruct (is_split data snk w
              && (bool_decide (n = v_in_of w) || bool_decide (n = v_out_of w)))
      eqn:Hb; [|done].
    assert (existsb (λ w, is_split data snk w
              && (bool_decide (n = v_in_of w) || bool_decide (n = v_out_of w)))
              (node_caps data).*1 = true) as Hex; [|congruence].
    apply existsb_exists. exists w. split; [by apply list_elem_of_In | done]. }
  rewrite Hw in Hf. cbn [andb] in Hf.
  apply orb_false_iff in Hf as [Hf1 Hf2].
  by apply bool_decide_eq_false in Hf1, Hf2.
Qed.

(** The reverse map sends the out-facet of a node to the node, provided
    the node's own identifier is not reserved. *)
Lemma node_map_facet_out (order : set_order) (data : instance) (snk : string)
    (u : string) :
  u ∈ all_nodes_of data snk →
  reserved data snk u = false →
  node_map (built_data order data snk) !! facet_out data snk u = Some u ∧
  facet_out data snk u ≠ s_super ∧ facet_out data snk u ≠ t_super.
Proof.
  intros Hu (Hs & Ht & Hfacet)%reserved_false.
  cbn [built_data node_map]. unfold make_node_map, facet_out.
  destruct (is_split data snk u) eqn:Hsplit.
  - split; [|apply v_out_of_ne_super].
    apply node_map_fold_facet.
    + intros w wi wo Hin. apply built_split_elem in Hin. tauto.
    + apply list_elem_of_fmap. exists (u, (v_in_of u, v_out_of u)).
      split; [done|]. by apply built_split_elem.
  - split; [|done]. rewrite node_map_fold_other.
    + rewrite !lookup_insert_ne by done. rewrite identity_map_lookup.
      by rewrite bool_decide_eq_true_2.
    + intros w wi wo (Hw & -> & ->)%built_split_elem. by apply Hfacet.
Qed.

(** ** Cut soundness *)

Lemma names_clear_elem (data : instance) (snk : string) (n : string) :
  names_clear data snk → n ∈ all_nodes_of data snk →
  reserved data snk n = false.
Proof. intros Hc Hn. by apply Hc. Qed.

(** C4 (amended): in an infeasible result of an instance none of whose
    node identifiers is reserved, every tight edge starts in
    [cut_reachable]; and in every infeasible result the deficit
    [total_expected_flow - max_flow] exceeds ε. *)
Theorem cut_soundness (order : set_order) (o : oracle) (data : instance)
    (c : certificate) :
  run o (solve_belts order data) = Infeasible c →
  TOLERANCE < demand_balance c ∧
  (∀ snk, sink_of data = Some snk → names_clear data snk →
     ∀ uv, uv ∈ tight_edges c → uv.1 ∈ cut_reachable c).
Proof.
  intros (G & bd & mf & fd & re & un & Hb & _ & Hlt & _ & ->)%solve_infeasible_inv.
  cbn [certify demand_balance tight_edges cut_reachable].
  split; [lra|].
  intros snk Hsink Hclear uv Huv.
  apply build_inv in Hb as (snk' & Hsink' & _ & -> & ->).
  assert (snk' = snk) as -> by congruence.
  rewrite tight_edges_loop_spec in Huv.
  apply list_elem_of_fmap in Huv as (r & -> & Hr).
  apply list_elem_of_filter in Hr as [[Hre _] Hr].
  rewrite original_edges_built in Hr.
  apply list_elem_of_fmap in Hr as (e & -> & He).
  cbn [record_of oe_orig oe_mapped mapped_edge fst] in *.
  assert (e_from e ∈ all_nodes_of data snk) as Hu.
  { apply elem_of_all_nodes. right; right; left. eauto. }
  destruct (node_map_facet_out order data snk (e_from e) Hu) as (Hnm & Hs & Ht).
  { by apply names_clear_elem. }
  apply elem_of_sorted_set. apply cut_reachable_loop_spec.
  exists (facet_out data snk (e_from e)). split; [|done].
  rewrite (iter_perm order re). by apply elem_of_elements.
Qed.

(** C4, counterexample: on [shadowed_supersource] the tight edge starts at
    the node called [s_super], which [cut_reachable] leaves out. *)
Lemma cut_soundness_counterexample :
  ∃ c, run shadowed_supersource_nx
         (solve_belts elements_order shadowed_supersource) = Infeasible c
       ∧ tight_edges c = [("s_super", "B")]%string
       ∧ cut_reachable c = ["A"]%string
       ∧ ¬ (∀ uv, uv ∈ tight_edges c → uv.1 ∈ cut_reachable c).
Proof.
  eexists. split; [vm_compute; reflexivity|].
  cbn [tight_edges cut_reachable]. split; [done|]. split; [done|].
  intros H. specialize (H ("s_super", "B")%string ltac:(left)).
  cbn [fst] in H. apply list_elem_of_singleton in H. done.
Qed.

(** ** Edges of the graph are unique *)

Lemma add_node_wf (n : string) (G : DiGraph) : graph_wf G → graph_wf (add_node n G).
Proof.
  intros [Hnd Hall]. unfold add_node.
  destruct (dict_has n G) eqn:Hn; [done|]. split.
  - rewrite fmap_app. apply NoDup_app. split; [done|]. split.
    + intros x Hx Hx'%list_elem_of_singleton. cbn [fst] in Hx'. subst x.
      apply dict_has_true in Hx. rewrite Hx in Hn. discriminate.
    + apply NoDup_singleton.
  - apply Forall_app. split; [done|]. repeat constructor.
Qed.

Lemma add_edge_wf (u v : string) (c : capacity) (G : DiGraph) :
  graph_wf G → graph_wf (add_edge u v c G).
Proof.
  intros Hwf. destruct (add_edge_unfold G u v c) as (succ & Hsucc & ->).
  assert (graph_wf (add_node v (add_node u G))) as [Hnd Hall]
    by by do 2 apply add_node_wf.
  split; [by apply dict_set_NoDup|].
  apply Forall_forall. intros p [->|Hp]%dict_set_elem.
  - cbn [snd]. apply dict_set_NoDup.
    apply dict_get_Some_elem in Hsucc.
    rewrite Forall_forall in Hall. apply (Hall _ Hsucc).
  - rewrite Forall_forall in Hall. by apply Hall.
Qed.

Lemma graph_edges_cons (u : string) (succ : list (string * capacity))
    (G : DiGraph) :
  graph_edges ((u, succ) :: G) =
  map (λ '(v, c), (u, v, c)) succ ++ graph_edges G.
Proof. done. Qed.

Lemma graph_edges_fst (G : DiGraph) (u v : string) (c : capacity) :
  (u, v, c) ∈ graph_edges G → u ∈ G.*1.
Proof.
  induction G as [|[u' succ] G IH]; [by intros ?%elem_of_nil|].
  rewrite graph_edges_cons, elem_of_app, fmap_cons, elem_of_cons.
  intros [Hin|Hin]; [|right; by apply IH].
  apply list_elem_of_fmap in Hin as ([v' c'] & Heq & _).
  left. by simplify_eq.
Qed.

Lemma graph_edges_NoDup (G : DiGraph) :
  graph_wf G → NoDup (graph_edges G).*1.
Proof.
  intros [Hnd Hall]. induction G as [|[u succ] G IH]; [constructor|].
  rewrite graph_edges_cons, fmap_app.
  inversion Hnd as [|? ? Hu Hnd']; subst.
  inversion Hall as [|? ? Hsucc Hall']; subst. cbn [snd] in Hsucc.
  apply NoDup_app. split; [|split; [|by apply IH]].
  - assert ((map (λ '(v, c), (u, v, c)) succ).*1 = map (pair u) succ.*1) as ->.
    { clear. induction succ as [|[v c] succ IH]; [done|].
      cbn [map fmap list_fmap fst]. f_equal. apply IH. }
    by apply (NoDup_fmap_2 (pair u)).
  - intros [u' v'] Hin1 Hin2.
    apply list_elem_of_fmap in Hin1 as ([[u1 v1] c1] & Heq1 & Hin1).
    apply list_elem_of_fmap in Hin1 as ([v2 c2] & Heq2 & _).
    apply list_elem_of_fmap in Hin2 as ([[u3 v3] c3] & Heq3 & Hin3).
    apply graph_edges_fst in Hin3. cbn [fst] in Heq1, Heq3.
    injection Heq1 as -> ->. injection Heq2 as -> -> ->.
    injection Heq3 as <- <-. done.
Qed.

Lemma elem_of_graph_edges (G : DiGraph) (u v : string) (c : capacity) :
  edge_capacity G u v = Some c → (u, v, c) ∈ graph_edges G.
Proof.
  unfold edge_capacity. destruct (dict_get u G) as [succ|] eqn:Hu; [|done].
  intros Hv. apply dict_get_Some_elem in Hu, Hv.
  induction G as [|[u' succ'] G IH]; [by apply elem_of_nil in Hu|].
  rewrite graph_edges_cons, elem_of_app.
  apply elem_of_cons in Hu as [[= <- <-]|Hu]; [left | right; by apply IH].
  apply list_elem_of_fmap. by exists (v, c).
Qed.

Lemma split_graph_wf (data : instance) (snk : string) :
  graph_wf (split_graph data snk).
Proof.
  unfold split_graph.
  assert (∀ caps st, graph_wf (sp_G st) →
            graph_wf (sp_G (foldl (split_step data snk) st caps))) as Hgen.
  { induction caps as [|[n cap] caps IH]; intros st Hst; [done|].
    cbn [foldl]. apply IH. unfold split_step.
    destruct (bool_decide (n = snk) || dict_has n (sources data)); [done|].
    by apply add_edge_wf. }
  apply Hgen. split; constructor.
Qed.

Lemma built_graph_wf (data : instance) (snk : string) :
  graph_wf (built_graph data snk).
Proof.
  unfold built_graph. apply add_edge_wf. unfold sources_state.
  assert (∀ ss st, graph_wf st.1 →
            graph_wf (foldl (source_step data snk) st ss).1) as Hsrc.
  { induction ss as [|s ss IH]; intros st Hst; [done|].
    cbn [foldl]. apply IH. by apply add_edge_wf. }
  apply Hsrc. cbn [fst]. unfold demands_state.
  assert (∀ ds st, graph_wf st.1 →
            graph_wf (foldl (demand_step data snk) st ds).1) as Hdem.
  { induction ds as [|d ds IH]; intros st Hst; [done|].
    cbn [foldl]. apply IH. unfold demand_step.
    destruct (Qgt_b d.2 TOLERANCE); [by apply add_edge_wf|].
    destruct (Qlt_b d.2 (- TOLERANCE)); [by apply add_edge_wf | done]. }
  apply Hdem. cbn [fst]. do 2 apply add_node_wf. unfold edges_state.
  assert (∀ es st, graph_wf (es_G st) →
            graph_wf (es_G (foldl (edge_step data snk) st es))) as Hed.
  { induction es as [|e es IH]; intros st Hst; [done|].
    cbn [foldl]. apply IH. by apply add_edge_wf. }
  apply Hed. apply split_graph_wf.
Qed.

(** ** Which loop writes which edge *)

Lemma edges_fold_capacity_other (data : instance) (snk : string)
    (es : list edge) (st : edge_state) (u v : string) :
  (∀ e, e ∈ es → mapped_edge data snk e ≠ (u, v)) →
  edge_capacity (es_G (foldl (edge_step data snk) st es)) u v =
  edge_capacity (es_G st) u v.
Proof.
  revert st. induction es as [|e es IH]; intros st Hne; [done|].
  cbn [foldl]. rewrite IH by (intros e' He'; apply Hne; by right).
  cbn [edge_step es_G]. apply edge_capacity_add_edge_ne.
  specialize (Hne e ltac:(left)).
  by destruct (mapped_edge data snk e).
Qed.

Lemma demands_fold_capacity (data : instance) (snk : string)
    (ds : list (string * Q)) (st : DiGraph * Q) (u v : string) :
  u ≠ s_super → v ≠ t_super →
  edge_capacity (foldl (demand_step data snk) st ds).1 u v =
  edge_capacity st.1 u v.
Proof.
  intros Hu Hv. revert st. induction ds as [|d ds IH]; intros st; [done|].
  cbn [foldl]. rewrite IH. unfold demand_step.
  destruct (Qgt_b d.2 TOLERANCE);
    [apply edge_capacity_add_edge_ne; congruence|].
  destruct (Qlt_b d.2 (- TOLERANCE)); [|done].
  apply edge_capacity_add_edge_ne; congruence.
Qed.

Lemma sources_fold_capacity (data : instance) (snk : string)
    (ss : list (string * Q)) (st : DiGraph * Q) (u v : string) :
  u ≠ s_super →
  edge_capacity (foldl (source_step data snk) st ss).1 u v =
  edge_capacity st.1 u v.
Proof.
  intros Hu. revert st. induction ss as [|s ss IH]; intros st; [done|].
  cbn [foldl]. rewrite IH. unfold source_step. cbn [fst].
  apply edge_capacity_add_edge_ne; congruence.
Qed.

(** The capacity of a transformed edge in the finished graph is the one
    written by the last input edge that is mapped onto it, unless it
    touches the supersource or the supersink. *)
Lemma built_graph_capacity_last (data : instance) (snk : string)
    (pre post : list edge) (e : edge) :
  edges data = pre ++ e :: post →
  (∀ e', e' ∈ post → mapped_edge data snk e' ≠ mapped_edge data snk e) →
  (mapped_edge data snk e).1 ≠ s_super →
  (mapped_edge data snk e).2 ≠ t_super →
  edge_capacity (built_graph data snk)
    (mapped_edge data snk e).1 (mapped_edge data snk e).2 = Some (edge_cap e).
Proof.
  intros Hedges Hpost Hs Ht. unfold built_graph.
  rewrite edge_capacity_add_edge_ne by congruence.
  unfold sources_state. rewrite sources_fold_capacity by done. cbn [fst].
  unfold demands_state. rewrite demands_fold_capacity by done. cbn [fst].
  rewrite !edge_capacity_add_node.
  unfold edges_state. rewrite Hedges, foldl_app. cbn [foldl].
  rewrite edges_fold_capacity_other.
  - cbn [edge_step es_G]. apply edge_capacity_add_edge_eq.
  - intros e' He'. specialize (Hpost e' He').
    by destruct (mapped_edge data snk e).
Qed.

(** ** Facets of nodes with clear identifiers *)

Section facets.
Variables (data : instance) (snk : string).
Hypothesis Hclear : names_clear data snk.

Lemma facet_out_inj (a b : string) :
  a ∈ all_nodes_of data snk → b ∈ all_nodes_of data snk →
  facet_out data snk a = facet_out data snk b → a = b.
Proof using Hclear.
  intros Ha Hb. unfold facet_out.
  pose proof (reserved_false _ _ _ (Hclear a Ha)) as (_ & _ & Hfa).
  pose proof (reserved_false _ _ _ (Hclear b Hb)) as (_ & _ & Hfb).
  destruct (is_split data snk a) eqn:Hsa, (is_split data snk b) eqn:Hsb.
  - apply v_out_of_inj.
  - intros Heq. destruct (Hfb a Hsa) as [_ Hn]. by destruct Hn.
  - intros Heq. by destruct (Hfa b Hsb) as [_ Hn].
  - done.
Qed.

Lemma facet_in_inj (a b : string) :
  a ∈ all_nodes_of data snk → b ∈ all_nodes_of data snk →
  facet_in data snk a = facet_in data snk b → a = b.
Proof using Hclear.
  intros Ha Hb. unfold facet_in.
  pose proof (reserved_false _ _ _ (Hclear a Ha)) as (_ & _ & Hfa).
  pose proof (reserved_false _ _ _ (Hclear b Hb)) as (_ & _ & Hfb).
  destruct (is_split data snk a) eqn:Hsa, (is_split data snk b) eqn:Hsb.
  - apply v_in_of_inj.
  - intros Heq. destruct (Hfb a Hsa) as [Hn _]. by destruct Hn.
  - intros Heq. by destruct (Hfa b Hsb) as [Hn _].
  - done.
Qed.

Lemma facet_not_super (a : string) :
  a ∈ all_nodes_of data snk →
  facet_out data snk a ≠ s_super ∧ facet_in data snk a ≠ t_super.
Proof using Hclear.
  intros Ha. unfold facet_out, facet_in.
  pose proof (reserved_false _ _ _ (Hclear a Ha)) as (Hs & Ht & _).
  destruct (is_split data snk a); [|done].
  split; [apply v_out_of_ne_super | apply v_in_of_ne_super].
Qed.

Lemma mapped_edge_inj (e e' : edge) :
  e ∈ edges data → e' ∈ edges data →
  mapped_edge data snk e' = mapped_edge data snk e → parallel e e'.
Proof using Hclear.
  intros He He'. unfold mapped_edge. intros [= Hout Hin].
  assert (∀ x, x ∈ edges data →
            e_from x ∈ all_nodes_of data snk
            ∧ e_to x ∈ all_nodes_of data snk) as Hnodes.
  { intros x Hx. split; apply elem_of_all_nodes; right; right; left; eauto. }
  destruct (Hnodes e He), (Hnodes e' He').
  split; [by apply facet_out_inj | by apply facet_in_inj].
Qed.
End facets.

(** ** Parallel edges *)

Lemma parallel_mapped_edge (data : instance) (snk : string) (e e' : edge) :
  parallel e e' → mapped_edge data snk e' = mapped_edge data snk e.
Proof. intros [Hf Ht]. unfold mapped_edge. by rewrite Hf, Ht. Qed.

(** C10 (amended): in an accepted instance none of whose node identifiers
    is reserved, the input edges that run between the same two nodes share
    one transformed edge; the graph has exactly one edge between those
    facets and its capacity is the one of the last such input edge; and
    [format_success] reports each of them with the flow of that one
    transformed edge plus its own lower bound. *)
Theorem parallel_edges_share_transformed_edge
    (order : set_order) (data : instance) (snk : string)
    (pre post : list edge) (e : edge) :
  sink_of data = Some snk →
  Forall (λ e, ¬ bad_bounds e) (edges data) →
  names_clear data snk →
  edges data = pre ++ e :: post →
  (∀ e', e' ∈ post → ¬ parallel e e') →
  ∃ G bd u_mapped v_mapped,
    build_transformed_graph order data = inr (G, bd) ∧
    mapped_edge data snk e = (u_mapped, v_mapped) ∧
    NoDup (graph_edges G).*1 ∧
    (u_mapped, v_mapped, edge_cap e) ∈ graph_edges G ∧
    ∀ e', e' ∈ edges data → parallel e e' →
      ∃ r, r ∈ original_edges bd
        ∧ oe_orig r = (e_from e', e_to e')
        ∧ oe_mapped r = (u_mapped, v_mapped)
        ∧ oe_lo r = lower_of e'
        ∧ ∀ flow_dict total fl,
            format_success flow_dict data (original_edges bd) total
              = Ok total fl →
            let flow := get_flow flow_dict u_mapped v_mapped + lower_of e' in
            TOLERANCE < flow →
            {| f_from := e_from e'; f_to := e_to e'; f_flow := flow |} ∈ fl.
Proof.
  intros Hsink Hok Hclear Hedges Hlast.
  exists (built_graph data snk), (built_data order data snk).
  destruct (mapped_edge data snk e) as [um vm] eqn:Hkey.
  exists um, vm. split; [by apply build_ok|]. split; [done|].
  split; [apply graph_edges_NoDup, built_graph_wf|].
  assert (e ∈ edges data) as He.
  { rewrite Hedges. apply elem_of_app. right. left. }
  assert (e_from e ∈ all_nodes_of data snk ∧ e_to e ∈ all_nodes_of data snk)
    as [Hu Hv].
  { split; apply elem_of_all_nodes; right; right; left; eauto. }
  split.
  - apply elem_of_graph_edges.
    change um with (um, vm).1. change vm with (um, vm).2 at 2.
    rewrite <- Hkey. apply (built_graph_capacity_last data snk pre post e).
    + done.
    + intros e' He' Heq. apply (Hlast e' He').
      apply (mapped_edge_inj data snk Hclear); [done| |done].
      rewrite Hedges. apply elem_of_app. right. by right.
    + apply (facet_not_super data snk Hclear (e_from e) Hu).
    + apply (facet_not_super data snk Hclear (e_to e) Hv).
  - intros e' He' Hpar. exists (record_of data snk e').
    assert (oe_mapped (record_of data snk e') = (um, vm)) as Hm.
    { cbn [record_of oe_mapped]. rewrite <- Hkey.
      by apply parallel_mapped_edge. }
    assert (record_of data snk e' ∈ original_edges (built_data order data snk))
      as Hin.
    { rewrite original_edges_built. apply list_elem_of_fmap. eauto. }
    split; [done|]. split; [done|]. split; [done|]. split; [done|].
    intros fd total fl [= <-] flow Hflow.
    rewrite flows_loop_spec. cbn [app]. apply list_elem_of_fmap.
    exists (record_of data snk e').
    assert (edge_flow fd (record_of data snk e') = flow) as Hef.
    { unfold edge_flow. by rewrite Hm. }
    split.
    + unfold flow_entry_of. by rewrite Hef.
    + apply list_elem_of_filter. split; [by rewrite Hef | done].
Qed.

(** C10, counterexample: in [shadowed_facet] the two parallel belts from
    the capped node [A] are mapped onto the edge [A_out -> B], and so is
    the later belt from the node called [A_out]; the capacity of that edge
    is 1, not the 7 of the last of the parallel belts. *)
Lemma parallel_edges_counterexample :
  ∃ G bd, build_transformed_graph elements_order shadowed_facet = inr (G, bd)
    ∧ mapped_edge shadowed_facet "B" (belt "A" "B" None (Some 7))
        = ("A_out", "B")%string
    ∧ edge_cap (belt "A" "B" None (Some 7)) = Finite 7
    ∧ edge_capacity G "A_out" "B" = Some (Finite 1)
    ∧ edge_capacity G "A_out" "B"
        ≠ Some (edge_cap (belt "A" "B" None (Some 7))).
Proof.
  do 2 eexists. split; [vm_compute; reflexivity|].
  split; [by vm_compute|]. split; [by vm_compute|].
  split; [by vm_compute|]. by vm_compute.
Qed.

(** ** The order in which sets are iterated does not matter *)











(** * The theorems at concrete instances *)

Lemma scenario_a_builds :
  build_transformed_graph elements_order scenario_a =
  inr (built_graph scenario_a "B", built_data elements_order scenario_a "B").
Proof. vm_compute. reflexivity. Qed.

Lemma status_ok_iff_max_flow_reaches_expected_witness :
  let bd := built_data elements_order scenario_a "B" in
  let r := run scenario_a_nx (solve_belts elements_order scenario_a) in
  (status_of r = StatusOk ↔ total_expected_flow bd - TOLERANCE <= 10) ∧
  (¬ total_expected_flow bd - TOLERANCE <= 10 → ∃ c, r = Infeasible c).
Proof.
  apply (status_ok_iff_max_flow_reaches_expected elements_order scenario_a_nx
           scenario_a (built_graph scenario_a "B")
           (built_data elements_order scenario_a "B") 10
           (list_to_map
              [("s_super"%string, {[ "A"%string := 10 ]});
               ("A"%string, {[ "B"%string := 10 ]});
               ("B"%string, {[ "t_super"%string := 10 ]});
               ("t_super"%string, ∅)])).
  - vm_compute. reflexivity.
  - intros H. vm_compute in H. discriminate H.
  - reflexivity.
Defined.

Lemma invalid_instance_is_error_witness :
  (∃ e, build_transformed_graph elements_order scenario_c = inl e) ∧
  (∃ m, solve_belts elements_order scenario_c = Ret (Error m)) ∧
  (∀ o, calls o (solve_belts elements_order scenario_c) = [] ∧
        status_of (run o (solve_belts elements_order scenario_c)) = StatusError).
Proof.
  apply (invalid_instance_is_error elements_order scenario_c).
  right. apply Exists_cons_hd. vm_compute. reflexivity.
Defined.

Lemma reported_flows_are_shifted_by_lower_witness :
  ∃ flow_dict,
    ((total_expected_flow (built_data elements_order scenario_a "B")
        < TOLERANCE ∧ flow_dict = ∅) ∨
     (¬ total_expected_flow (built_data elements_order scenario_a "B")
          < TOLERANCE ∧
      ∃ mf, maximum_flow scenario_a_nx (built_graph scenario_a "B")
              s_super t_super = FlowOk mf flow_dict)) ∧
    [ {| f_from := "A"; f_to := "B"; f_flow := 10 + 0 |} ]
      = map (flow_entry_of flow_dict)
          (filter (λ r, TOLERANCE < edge_flow flow_dict r)
             (original_edges (built_data elements_order scenario_a "B"))) ∧
    (∀ r, r ∈ original_edges (built_data elements_order scenario_a "B") →
       edge_flow flow_dict r
         = default 0 (assigned flow_dict (oe_mapped r)) + oe_lo r ∧
       (flow_entry_of flow_dict r
          ∈ [ {| f_from := "A"; f_to := "B"; f_flow := 10 + 0 |} ]
        ↔ TOLERANCE < edge_flow flow_dict r)).
Proof.
  apply (reported_flows_are_shifted_by_lower elements_order scenario_a_nx
           scenario_a (built_graph scenario_a "B")
           (built_data elements_order scenario_a "B") 10).
  - vm_compute. reflexivity.
  - vm_compute. reflexivity.
Defined.

Lemma trivial_instance_short_circuits_witness :
  (∃ G bd, build_transformed_graph elements_order idle_network = inr (G, bd)
           ∧ total_expected_flow bd < TOLERANCE) ∧
  solve_belts elements_order idle_network = Ret (Ok 0 []) ∧
  (∀ o, calls o (solve_belts elements_order idle_network) = []).
Proof.
  apply (trivial_instance_short_circuits elements_order idle_network "B").
  - reflexivity.
  - reflexivity.
  - intros e He. cbn [idle_network edges] in He.
    apply elem_of_cons in He as [->|He]; [reflexivity|].
    apply list_elem_of_singleton in He as ->. reflexivity.
  - intros e hi He Hu. cbn [idle_network edges] in He.
    apply elem_of_cons in He as [->|He].
    + injection Hu as <-. vm_compute. discriminate.
    + apply list_elem_of_singleton in He as ->. discriminate Hu.
Defined.

Lemma scenario_b_names_clear : names_clear scenario_b "B".
Proof. apply (bool_decide_unpack _). vm_compute. exact I. Qed.

Lemma scenario_b_infeasible :
  run scenario_b_nx (solve_belts elements_order scenario_b) =
  Infeasible {| cut_reachable := ["A"%string];
                demand_balance := 10 - 5;
                tight_nodes := [];
                tight_edges := [("A", "B")%string] |}.
Proof. vm_compute. reflexivity. Qed.

Lemma cut_soundness_witness :
  TOLERANCE < 10 - 5 ∧
  ∀ uv, uv ∈ [("A", "B")%string] → uv.1 ∈ ["A"%string].
Proof.
  destruct (cut_soundness elements_order scenario_b_nx scenario_b _
              scenario_b_infeasible) as [Hdeficit Hedges].
  split; [exact Hdeficit|].
  exact (Hedges "B"%string eq_refl scenario_b_names_clear).
Defined.

Lemma three_belts_infeasible :
  run three_belts_nx (solve_belts elements_order three_belts) =
  Infeasible {| cut_reachable := ["A"; "B"]%string;
                demand_balance := 10 - 2;
                tight_nodes := [];
                tight_edges := [("B", "T"); ("A", "T"); ("B", "T")]%string |}.
Proof. vm_compute. reflexivity. Qed.

Lemma certificate_sets_sorted_witness :
  (NoDup ["A"; "B"]%string ∧ StronglySorted str_le ["A"; "B"]%string) ∧
  (NoDup (@nil string) ∧ StronglySorted str_le []) ∧
  ∃ G bd reachable unreachable,
    build_transformed_graph elements_order three_belts = inr (G, bd) ∧
    partition_used three_belts_nx G reachable unreachable ∧
    map oe_orig (original_edges bd)
      = map (λ e, (e_from e, e_to e)) (edges three_belts) ∧
    [("B", "T"); ("A", "T"); ("B", "T")]%string =
      map oe_orig
        (filter (λ r, crosses reachable unreachable (oe_mapped r))
           (original_edges bd)).
Proof.
  exact (certificate_sets_sorted elements_order three_belts_nx three_belts _
           three_belts_infeasible).
Defined.

Lemma sink_edge_capacity_witness :
  ∃ snk, sink_of scenario_a = Some snk
    ∧ facet_in scenario_a snk snk = snk
    ∧ total_supply (built_data elements_order scenario_a "B")
        = foldl (λ t s, t + s.2) 0 (sources scenario_a)
    ∧ edge_capacity (built_graph scenario_a "B") snk t_super =
        Some (if decide (TOLERANCE
                         < total_supply (built_data elements_order scenario_a "B"))
              then Finite (total_supply (built_data elements_order scenario_a "B"))
              else Unbounded).
Proof.
  exact (sink_edge_capacity elements_order scenario_a _ _ scenario_a_builds).
Defined.

Lemma doubled_belt_names_clear : names_clear doubled_belt "B".
Proof. apply (bool_decide_unpack _). vm_compute. exact I. Qed.

Lemma parallel_edges_share_transformed_edge_witness :
  ∃ G bd u_mapped v_mapped,
    build_transformed_graph elements_order doubled_belt = inr (G, bd) ∧
    mapped_edge doubled_belt "B" (belt "A" "B" None (Some 7))
      = (u_mapped, v_mapped) ∧
    NoDup (graph_edges G).*1 ∧
    (u_mapped, v_mapped, edge_cap (belt "A" "B" None (Some 7)))
      ∈ graph_edges G ∧
    ∀ e', e' ∈ edges doubled_belt → parallel (belt "A" "B" None (Some 7)) e' →
      ∃ r, r ∈ original_edges bd
        ∧ oe_orig r = (e_from e', e_to e')
        ∧ oe_mapped r = (u_mapped, v_mapped)
        ∧ oe_lo r = lower_of e'
        ∧ ∀ flow_dict total fl,
            format_success flow_dict doubled_belt (original_edges bd) total
              = Ok total fl →
            let flow := get_flow flow_dict u_mapped v_mapped + lower_of e' in
            TOLERANCE < flow →
            {| f_from := e_from e'; f_to := e_to e'; f_flow := flow |} ∈ fl.
Proof.
  apply (parallel_edges_share_transformed_edge elements_order doubled_belt "B"
           [belt "A" "B" (Some 1) (Some 3)] []).
  - reflexivity.
  - repeat constructor; intros H; vm_compute in H; discriminate H.
  - exact doubled_belt_names_clear.
  - reflexivity.
  - intros e' He'. inversion He'.
Defined.

Lemma certifier_always_succeeds_witness :
  let G := built_graph scenario_b "B" in
  let bd := built_data elements_order scenario_b "B" in
  let failing := {| maximum_flow := maximum_flow scenario_b_nx;
                    minimum_cut := λ _ _ _, CutNetworkXError |} in
  run failing (format_infeasible elements_order G 5 10 bd) =
  Infeasible (certify elements_order {[ s_super ]}
                (list_to_set G.*1 ∖ {[ s_super ]}) (10 - 5) bd).
Proof.
  cbn zeta.
  exact (proj1 (proj2 (certifier_always_succeeds elements_order
                         {| maximum_flow := maximum_flow scenario_b_nx;
                            minimum_cut := λ _ _ _, CutNetworkXError |}
                         (built_graph scenario_b "B") 5 10
                         (built_data elements_order scenario_b "B")))
           eq_refl).
Defined.

(** ** Two maximum flows of one graph *)









(** * Further properties of the builder *)

(** ** Which exception the builder raises *)

Lemma first_bad_edge (es : list edge) :
  Exists bad_bounds es →
  ∃ pre b post, es = pre ++ b :: post
    ∧ Forall (λ x, ¬ bad_bounds x) pre ∧ bad_bounds b.
Proof.
  induction es as [|e es IH]; intros Hex; [inversion Hex|].
  destruct (decide (bad_bounds e)) as [Hbad|Hgood].
  - exists [], e, es. split; [done|]. split; [constructor | done].
  - inversion Hex as [|? ? Hex']; subst; [done|].
    destruct (IH Hex') as (pre & b & post & -> & Hpre & Hb).
    exists (e :: pre), b, post. split; [done|]. split; [by constructor | done].
Qed.

Lemma edges_loop_prefix (order : set_order) (data : instance) (snk : string)
    (pre rest : list edge) (st : edge_state) :
  let sp := foldl (split_step data snk)
              {| sp_G := [];
                 sp_in := identity_map (order (all_nodes_of data snk));
                 sp_out := identity_map (order (all_nodes_of data snk));
                 sp_split := [] |} (node_caps data) in
  Forall (λ e, ¬ bad_bounds e) pre →
  (∀ e, e ∈ pre → e_from e ∈ all_nodes_of data snk
                  ∧ e_to e ∈ all_nodes_of data snk) →
  edges_loop (sp_in sp) (sp_out sp) (pre ++ rest) st =
  edges_loop (sp_in sp) (sp_out sp) rest (foldl (edge_step data snk) st pre).
Proof.
  cbn zeta. revert st. induction pre as [|e pre IH]; intros st Hok Hin; [done|].
  cbn [app edges_loop foldl]. inversion Hok as [|? ? Hgood Hok']; subst.
  destruct (cap_lt (upper_of e) (lower_of e - TOLERANCE)) eqn:Hlt.
  { exfalso. by apply Hgood, cap_lt_bad_bounds. }
  destruct (Hin e) as [Hu Hv]; [left|].
  rewrite m_out_lookup, m_in_lookup.
  rewrite !bool_decide_eq_true_2 by done.
  apply IH; [done|]. intros e' He'. apply Hin. by right.
Qed.

(** X1: the builder raises only the two [ValueError]s of its source, never
    a [KeyError]: when it fails, either the sink is unset, or the exception
    names the first edge, in input order, with [upper < lower - ε]. *)
Theorem build_error_names_first_bad_edge (order : set_order) (data : instance)
    (e : exn) :
  build_transformed_graph order data = inl e →
  (sink_of data = None ∧ e = NoSink) ∨
  (∃ pre b post,
     is_Some (sink_of data) ∧ edges data = pre ++ b :: post
     ∧ Forall (λ x, ¬ bad_bounds x) pre ∧ bad_bounds b
     ∧ e = BadBounds (e_from b) (e_to b) (upper_of b) (lower_of b)).
Proof.
  intros Hb. destruct (sink_of data) as [snk|] eqn:Hsink.
  2:{ left. unfold build_transformed_graph in Hb. rewrite Hsink in Hb.
      by simplify_eq. }
  right. destruct (decide (Exists bad_bounds (edges data))) as [Hex|Hnex].
  2:{ apply Forall_Exists_neg in Hnex.
      rewrite (build_ok order data snk Hsink Hnex) in Hb. discriminate. }
  destruct (first_bad_edge _ Hex) as (pre & b & post & Hedges & Hpre & Hbad).
  exists pre, b, post. split; [done|]. split; [done|]. split; [done|].
  split; [done|].
  unfold build_transformed_graph in Hb. rewrite Hsink, Hedges in Hb.
  rewrite edges_loop_prefix in Hb; [|done|].
  2:{ intros x Hx. split; apply elem_of_all_nodes; right; right; left;
        exists x; (split; [|tauto]); rewrite Hedges; apply elem_of_app;
        by left. }
  cbn [edges_loop] in Hb. apply cap_lt_bad_bounds in Hbad.
  rewrite Hbad in Hb. by simplify_eq.
Qed.

Lemma build_error_names_first_bad_edge_witness :
  (sink_of scenario_c = None
   ∧ BadBounds "A" "B" (Finite 2) 5 = NoSink) ∨
  (∃ pre b post,
     is_Some (sink_of scenario_c) ∧ edges scenario_c = pre ++ b :: post
     ∧ Forall (λ x, ¬ bad_bounds x) pre ∧ bad_bounds b
     ∧ BadBounds "A" "B" (Finite 2) 5
       = BadBounds (e_from b) (e_to b) (upper_of b) (lower_of b)).
Proof.
  apply (build_error_names_first_bad_edge elements_order scenario_c).
  vm_compute. reflexivity.
Defined.

(** ** Where the edges of the transformed graph come from *)

Lemma elem_of_graph_edges_iff (G : DiGraph) (x : string * string * capacity) :
  x ∈ graph_edges G ↔
  ∃ u succ v c, (u, succ) ∈ G ∧ (v, c) ∈ succ ∧ x = (u, v, c).
Proof.
  induction G as [|[u succ] G IH].
  - split; [by intros ?%elem_of_nil|].
    intros (? & ? & ? & ? & H & _). by apply elem_of_nil in H.
  - rewrite graph_edges_cons, elem_of_app, IH. split.
    + intros [Hin|(u' & succ' & v & c & Hu & Hv & ->)].
      * apply list_elem_of_fmap in Hin as ([v c] & -> & Hv).
        exists u, succ, v, c. split; [left | done].
      * exists u', succ', v, c. split; [by right | done].
    + intros (u' & succ' & v & c & Hu & Hv & ->).
      apply elem_of_cons in Hu as [[= -> ->]|Hu].
      * left. apply list_elem_of_fmap. by exists (v, c).
      * right. eauto 10.
Qed.

Lemma graph_edges_add_node (n : string) (G : DiGraph)
    (x : string * string * capacity) :
  x ∈ graph_edges (add_node n G) ↔ x ∈ graph_edges G.
Proof.
  unfold add_node. destruct (dict_has n G); [done|].
  rewrite !elem_of_graph_edges_iff. split.
  - intros (u & succ & v & c & Hu & Hv & ->).
    apply elem_of_app in Hu as [Hu|Hu]; [eauto 10|].
    apply list_elem_of_singleton in Hu as [= -> ->].
    by apply elem_of_nil in Hv.
  - intros (u & succ & v & c & Hu & Hv & ->).
    exists u, succ, v, c. split; [|done]. apply elem_of_app. by left.
Qed.

Lemma graph_edges_add_edge (u v : string) (c : capacity) (G : DiGraph)
    (x : string * string * capacity) :
  x ∈ graph_edges (add_edge u v c G) → x = (u, v, c) ∨ x ∈ graph_edges G.
Proof.
  destruct (add_edge_unfold G u v c) as (succ & Hsucc & ->).
  intros Hx. apply elem_of_graph_edges_iff in Hx
    as (u' & succ' & v' & c' & Hu & Hv & ->).
  apply dict_get_Some_elem in Hsucc.
  apply dict_set_elem in Hu as [[= -> ->]|Hu].
  - apply dict_set_elem in Hv as [[= -> ->]|Hv]; [by left|].
    right. apply (graph_edges_add_node u), (graph_edges_add_node v).
    apply elem_of_graph_edges_iff. eauto 10.
  - right. apply (graph_edges_add_node u), (graph_edges_add_node v).
    apply elem_of_graph_edges_iff. eauto 10.
Qed.

Lemma split_graph_edges (data : instance) (snk : string)
    (x : string * string * capacity) :
  x ∈ graph_edges (split_graph data snk) →
  ∃ n cap, (n, cap) ∈ node_caps data ∧ is_split data snk n = true
           ∧ x = (v_in_of n, v_out_of n, Finite cap).
Proof.
  unfold split_graph.
  assert (∀ caps st,
    x ∈ graph_edges (sp_G (foldl (split_step data snk) st caps)) →
    x ∈ graph_edges (sp_G st) ∨
    ∃ n cap, (n, cap) ∈ caps
             ∧ bool_decide (n = snk) || dict_has n (sources data) = false
             ∧ x = (v_in_of n, v_out_of n, Finite cap)) as Hgen.
  { induction caps as [|[n cap] caps IH]; intros st; cbn [foldl]; [auto|].
    intros [Hx|(n' & cap' & Hin & ?)]%IH.
    - unfold split_step in Hx.
      destruct (bool_decide (n = snk) || dict_has n (sources data)) eqn:Hskip;
        [by left|].
      cbn [sp_G] in Hx. apply graph_edges_add_edge in Hx as [->|Hx];
        [|by left].
      right. exists n, cap. split; [left | done].
    - right. exists n', cap'. split; [by right | done]. }
  intros [Hx|(n & cap & Hin & Hskip & ->)]%Hgen.
  - by apply elem_of_nil in Hx.
  - exists n, cap. split; [done|]. split; [|done].
    unfold is_split. rewrite Hskip, andb_true_r.
    apply bool_decide_eq_true. apply list_elem_of_fmap. by exists (n, cap).
Qed.

(** X2: the transformed graph contains no edge but the ones the builder
    adds on purpose: the [in -> out] edge of a split node, the transformed
    edge of an input edge, a demand edge out of the supersource, a surplus
    edge into the supersink, a source edge, or the sink edge. *)
Theorem built_graph_edges_origin (order : set_order) (data : instance)
    (G : DiGraph) (bd : build_data) :
  build_transformed_graph order data = inr (G, bd) →
  ∃ snk, sink_of data = Some snk ∧
    ∀ x, x ∈ graph_edges G → edge_origin data snk x.
Proof.
  intros (snk & Hsink & _ & -> & _)%build_inv. exists snk. split; [done|].
  intros x. unfold built_graph. rewrite facet_in_sink.
  intros [->|Hx]%graph_edges_add_edge; [constructor|].
  unfold sources_state in Hx.
  assert (∀ ss st,
    (∀ p, p ∈ ss → p ∈ sources data) →
    x ∈ graph_edges (foldl (source_step data snk) st ss).1 →
    x ∈ graph_edges st.1 ∨ edge_origin data snk x) as Hsrc.
  { induction ss as [|[s supply] ss IH]; intros st Hss; cbn [foldl]; [auto|].
    intros [Hx'|?]%IH; [|by right|intros p Hp; apply Hss; by right].
    cbn [source_step fst snd] in Hx'.
    apply graph_edges_add_edge in Hx' as [->|?]; [|by left].
    right. apply origin_source. apply Hss. left. }
  apply Hsrc in Hx as [Hx|?]; [|done|done]. cbn [fst] in Hx.
  unfold demands_state in Hx.
  assert (∀ ds st,
    (∀ p, p ∈ ds → p ∈ es_lo (edges_state data snk)) →
    x ∈ graph_edges (foldl (demand_step data snk) st ds).1 →
    x ∈ graph_edges st.1 ∨ edge_origin data snk x) as Hdem.
  { induction ds as [|[v d] ds IH]; intros st Hds; cbn [foldl]; [auto|].
    intros [Hx'|?]%IH; [|by right|intros p Hp; apply Hds; by right].
    unfold demand_step in Hx'. cbn [fst snd] in Hx'.
    destruct (Qgt_b d TOLERANCE) eqn:Hgt.
    - apply Qgt_b_true in Hgt. cbn [fst] in Hx'.
      apply graph_edges_add_edge in Hx' as [->|?]; [|by left].
      right. apply origin_demand; [apply Hds; left | done].
    - destruct (Qlt_b d (- TOLERANCE)) eqn:Hlt; [|by left].
      apply Qlt_b_true in Hlt. cbn [fst] in Hx'.
      apply graph_edges_add_edge in Hx' as [->|?]; [|by left].
      right. apply origin_surplus; [apply Hds; left | done]. }
  apply Hdem in Hx as [Hx|?]; [|done|done]. cbn [fst] in Hx.
  rewrite !graph_edges_add_node in Hx. unfold edges_state in Hx.
  assert (∀ es st,
    (∀ e, e ∈ es → e ∈ edges data) →
    x ∈ graph_edges (es_G (foldl (edge_step data snk) st es)) →
    x ∈ graph_edges (es_G st) ∨ edge_origin data snk x) as Hed.
  { induction es as [|e es IH]; intros st Hes; cbn [foldl]; [auto|].
    intros [Hx'|?]%IH; [|by right|intros p Hp; apply Hes; by right].
    cbn [edge_step es_G] in Hx'.
    apply graph_edges_add_edge in Hx' as [->|?]; [|by left].
    right. apply origin_input. apply Hes. left. }
  apply Hed in Hx as [Hx|?]; [|done|done]. cbn [es_G] in Hx.
  apply split_graph_edges in Hx as (n & cap & Hin & Hs & ->).
  by apply origin_split.
Qed.

Lemma built_graph_edges_origin_witness :
  ∃ snk, sink_of scenario_a = Some snk ∧
    ∀ x, x ∈ graph_edges (built_graph scenario_a "B") →
         edge_origin scenario_a snk x.
Proof.
  exact (built_graph_edges_origin elements_order scenario_a _ _
           scenario_a_builds).
Defined.

(** ** Capacities *)

Lemma edge_cap_cases (e : edge) :
  edge_cap e = Unbounded ∨ edge_cap e = Finite 0
  ∨ ∃ q, edge_cap e = Finite q ∧ TOLERANCE <= q.
Proof.
  unfold edge_cap, upper_of. destruct (e_upper e) as [h|]; cbn [cap_sub cap_lt];
    [|by left].
  destruct (Qlt_le_dec (h - lower_of e) TOLERANCE); right; [by left|].
  right. eauto.
Qed.

Lemma edge_cap_nonneg (e : edge) : cap_nonneg (edge_cap e).
Proof.
  pose proof TOLERANCE_pos.
  destruct (edge_cap_cases e) as [->|[->|(q & -> & Hq)]]; cbn; [done| |]; lra.
Qed.

(** X3: when the supplies and the node caps of the instance are not
    negative, no edge of the transformed graph has a negative capacity;
    the difference [upper - lower] of an input edge is clamped to 0 when it
    is below ε. *)
Theorem built_graph_capacities_nonneg (order : set_order) (data : instance)
    (G : DiGraph) (bd : build_data) :
  build_transformed_graph order data = inr (G, bd) →
  (∀ s q, (s, q) ∈ sources data → 0 <= q) →
  (∀ n q, (n, q) ∈ node_caps data → 0 <= q) →
  ∀ u v c, (u, v, c) ∈ graph_edges G → cap_nonneg c.
Proof.
  intros Hb Hsrc Hcap u v c Hin.
  destruct (built_graph_edges_origin order data G bd Hb) as (snk & _ & Horig).
  pose proof TOLERANCE_pos as Hpos.
  specialize (Horig _ Hin). change c with (u, v, c).2.
  destruct Horig as [n cap Hn _|e _|w d _ Hd|w d _ Hd|s q Hs|];
    cbn [snd cap_nonneg].
  - eauto.
  - apply edge_cap_nonneg.
  - lra.
  - lra.
  - eauto.
  - unfold sink_cap.
    destruct (Qgt_b (sources_state data snk).2 TOLERANCE) eqn:Hgt; [|done].
    apply Qgt_b_true in Hgt. cbn. lra.
Qed.

Lemma built_graph_capacities_nonneg_witness : cap_nonneg (Finite 10).
Proof.
  apply (built_graph_capacities_nonneg elements_order scenario_a _ _
           scenario_a_builds) with (u := "A"%string) (v := "B"%string).
  - intros s q Hin. apply list_elem_of_singleton in Hin as [= _ ->].
    vm_compute. discriminate.
  - intros n q Hin. by apply elem_of_nil in Hin.
  - apply elem_of_graph_edges. vm_compute. reflexivity.
Defined.

(** ** Balances *)

Lemma demand_add_lookup (k v : string) (x : Q) (d : list (string * Q)) :
  dict_get v (demand_add k x d) =
  if decide (v = k) then Some (default 0 (dict_get k d) + x)
  else dict_get v d.
Proof.
  unfold demand_add. destruct (decide (v = k)) as [->|Hne].
  - apply dict_get_set_eq.
  - by apply dict_get_set_ne.
Qed.

Lemma edges_loop_balance (m_in m_out : gmap string string) (es : list edge)
    (st st' : edge_state) (v : string) :
  edges_loop m_in m_out es st = inr st' →
  default 0 (dict_get v (es_lo st')) ==
  default 0 (dict_get v (es_lo st)) + (forced_in es v - forced_out es v).
Proof.
  revert st. induction es as [|e es IH]; intros st; cbn [edges_loop].
  - intros [= <-]. cbn. ring.
  - destruct (cap_lt (upper_of e) (lower_of e - TOLERANCE)); [done|].
    destruct (m_out !! e_from e); [|done].
    destruct (m_in !! e_to e); [|done].
    intros Hloop. rewrite (IH _ Hloop).
    cbn [es_lo forced_in forced_out foldr].
    fold (forced_in es v). fold (forced_out es v).
    rewrite !demand_add_lookup.
    destruct (decide (e_to e = v)) as [Ht|Ht],
      (decide (e_from e = v)) as [Hf|Hf];
      rewrite ?Ht, ?Hf; repeat case_decide; try congruence;
      unfold default; cbn [from_option id]; ring.
Qed.

Lemma edges_loop_lo_NoDup (m_in m_out : gmap string string) (es : list edge)
    (st st' : edge_state) :
  edges_loop m_in m_out es st = inr st' →
  NoDup (es_lo st).*1 → NoDup (es_lo st').*1.
Proof.
  revert st. induction es as [|e es IH]; intros st; cbn [edges_loop].
  - by intros [= <-].
  - destruct (cap_lt (upper_of e) (lower_of e - TOLERANCE)); [done|].
    destruct (m_out !! e_from e); [|done].
    destruct (m_in !! e_to e); [|done].
    intros Hloop Hnd. apply (IH _ Hloop). cbn [es_lo]. unfold demand_add.
    by do 2 apply dict_set_NoDup.
Qed.

(** X4: when the loop over the edges completes, the balance that it has
    accumulated for a node is the sum of the lower bounds of the node's
    incoming edges minus the sum of the lower bounds of its outgoing
    edges, and each node has at most one balance entry. *)
Theorem balance_is_forced_in_minus_out (m_in m_out : gmap string string)
    (es : list edge) (st st' : edge_state) (v : string) (d : Q) :
  es_lo st = [] →
  edges_loop m_in m_out es st = inr st' →
  (v, d) ∈ es_lo st' →
  d == forced_in es v - forced_out es v ∧ NoDup (es_lo st').*1.
Proof.
  intros Hempty Hloop Hin.
  assert (NoDup (es_lo st').*1) as Hnd.
  { apply (edges_loop_lo_NoDup _ _ _ _ _ Hloop). rewrite Hempty. constructor. }
  split; [|done].
  apply dict_get_elem_NoDup in Hin; [|done].
  pose proof (edges_loop_balance _ _ _ _ _ v Hloop) as Hbal.
  rewrite Hin, Hempty in Hbal. cbn [default dict_get] in Hbal.
  unfold default in Hbal. cbn [from_option id] in Hbal. rewrite Hbal. ring.
Qed.

Lemma balance_is_forced_in_minus_out_witness :
  - (1) == forced_in (edges doubled_belt) "A"
            - forced_out (edges doubled_belt) "A"
  ∧ NoDup ["A"; "B"]%string.
Proof.
  exact (balance_is_forced_in_minus_out
           (identity_map ["A"; "B"]%string) (identity_map ["A"; "B"]%string)
           (edges doubled_belt)
           {| es_G := []; es_orig := []; es_lo := [] |}
           {| es_G := [("A", [("B", Finite 7)]); ("B", [])]%string;
              es_orig :=
                [ {| oe_orig := ("A", "B"); oe_mapped := ("A", "B");
                     oe_lo := 1 |};
                  {| oe_orig := ("A", "B"); oe_mapped := ("A", "B");
                     oe_lo := 0 |} ]%string;
              es_lo := [("A", 0 + - (1) + - 0); ("B", 0 + 1 + 0)]%string |}
           "A"%string (0 + - (1) + - 0)
           eq_refl eq_refl ltac:(left)).
Defined.

(** ** The required flow *)

Lemma demands_fold_total (data : instance) (snk : string)
    (ds : list (string * Q)) (st : DiGraph * Q) :
  (foldl (demand_step data snk) st ds).2 == st.2 + positive_demand ds.
Proof.
  revert st. induction ds as [|[v d] ds IH]; intros st; cbn [foldl].
  - cbn. ring.
  - rewrite IH. unfold demand_step. cbn [fst snd positive_demand foldr].
    fold (positive_demand ds).
    destruct (Qgt_b d TOLERANCE); cbn [snd]; [ring|].
    destruct (Qlt_b d (- TOLERANCE)); cbn [snd]; ring.
Qed.

Lemma positive_demand_nonneg (ds : list (string * Q)) : 0 <= positive_demand ds.
Proof.
  pose proof TOLERANCE_pos as Hpos.
  induction ds as [|[v d] ds IH]; cbn [positive_demand foldr snd].
  - lra.
  - fold (positive_demand ds).
    destruct (Qgt_b d TOLERANCE) eqn:Hgt; [|done].
    apply Qgt_b_true in Hgt. lra.
Qed.

(** X5: [total_expected_flow] is the sum of the node balances that exceed
    ε plus [total_supply], the sum of the supplies; it is never below
    [total_supply]. *)
Theorem expected_flow_decomposition (order : set_order) (data : instance)
    (G : DiGraph) (bd : build_data) :
  build_transformed_graph order data = inr (G, bd) →
  ∃ snk, sink_of data = Some snk
    ∧ total_supply bd = foldl (λ t s, t + s.2) 0 (sources data)
    ∧ total_expected_flow bd ==
        positive_demand (es_lo (edges_state data snk)) + total_supply bd
    ∧ total_supply bd <= total_expected_flow bd.
Proof.
  intros (snk & Hsink & _ & _ & ->)%build_inv. exists snk. split; [done|].
  cbn [built_data total_supply total_expected_flow].
  assert ((demands_state data snk).2 ==
          positive_demand (es_lo (edges_state data snk))) as Hd.
  { unfold demands_state. rewrite demands_fold_total. cbn [snd]. ring. }
  pose proof (positive_demand_nonneg (es_lo (edges_state data snk))) as Hpos.
  split; [|split].
  - unfold sources_state. by rewrite sources_fold_total.
  - rewrite Hd. ring.
  - rewrite Hd. lra.
Qed.

Lemma expected_flow_decomposition_witness :
  ∃ snk, sink_of doubled_belt = Some snk
    ∧ total_supply (built_data elements_order doubled_belt "B")
        = foldl (λ t s, t + s.2) 0 (sources doubled_belt)
    ∧ total_expected_flow (built_data elements_order doubled_belt "B") ==
        positive_demand (es_lo (edges_state doubled_belt snk))
        + total_supply (built_data elements_order doubled_belt "B")
    ∧ total_supply (built_data elements_order doubled_belt "B")
        <= total_expected_flow (built_data elements_order doubled_belt "B").
Proof.
  apply (expected_flow_decomposition elements_order doubled_belt
           (built_graph doubled_belt "B")).
  vm_compute. reflexivity.
Defined.

(** ** What the orchestrator reports and when it calls the oracle *)

(** X6: the [max_flow_per_min] of an "ok" result is not the flow value of
    the oracle: it is 0 on the short-circuit of the trivial instance and
    [total_supply], the sum of the supplies, otherwise. *)
Theorem max_flow_per_min_is_total_supply (order : set_order) (o : oracle)
    (data : instance) (G : DiGraph) (bd : build_data)
    (m : Q) (fl : list flow_entry) :
  build_transformed_graph order data = inr (G, bd) →
  run o (solve_belts order data) = Ok m fl →
  (total_expected_flow bd < TOLERANCE ∧ m = 0) ∨
  (¬ total_expected_flow bd < TOLERANCE
   ∧ m = foldl (λ t s, t + s.2) 0 (sources data)
   ∧ ∃ max_flow flow_dict,
       maximum_flow o G s_super t_super = FlowOk max_flow flow_dict
       ∧ total_expected_flow bd - TOLERANCE <= max_flow).
Proof.
  intros Hb Hrun. unfold solve_belts in Hrun. rewrite Hb in Hrun.
  destruct (Qlt_b (total_expected_flow bd) TOLERANCE) eqn:Htriv.
  - apply Qlt_b_true in Htriv. cbn [run format_success] in Hrun.
    left. split; [done|]. by injection Hrun as <- _.
  - apply Qlt_b_false in Htriv. right. split; [by apply Qle_not_lt|].
    cbn [run] in Hrun.
    destruct (maximum_flow o G s_super t_super) as [mf fd| |] eqn:Hmf;
      cbn [run] in Hrun; try discriminate.
    destruct (Qlt_b mf (total_expected_flow bd - TOLERANCE)) eqn:Hlt.
    + cbn [format_infeasible run] in Hrun.
      destruct (minimum_cut o G s_super t_super); cbn [run] in Hrun;
        discriminate.
    + apply Qlt_b_false in Hlt. cbn [run format_success] in Hrun.
      injection Hrun as <- _. split; [|eauto].
      apply build_inv in Hb as (snk & _ & _ & _ & ->).
      cbn [built_data total_supply]. unfold sources_state.
      by rewrite sources_fold_total.
Qed.

Lemma max_flow_per_min_is_total_supply_witness :
  (total_expected_flow (built_data elements_order scenario_a "B") < TOLERANCE
   ∧ 0 + 10 = 0) ∨
  (¬ total_expected_flow (built_data elements_order scenario_a "B") < TOLERANCE
   ∧ 0 + 10 = foldl (λ t s, t + s.2) 0 (sources scenario_a)
   ∧ ∃ max_flow flow_dict,
       maximum_flow scenario_a_nx (built_graph scenario_a "B") s_super t_super
         = FlowOk max_flow flow_dict
       ∧ total_expected_flow (built_data elements_order scenario_a "B")
         - TOLERANCE <= max_flow).
Proof.
  apply (max_flow_per_min_is_total_supply elements_order scenario_a_nx
           scenario_a (built_graph scenario_a "B")
           (built_data elements_order scenario_a "B") (0 + 10)
           [ {| f_from := "A"; f_to := "B"; f_flow := 10 + 0 |} ]).
  - vm_compute. reflexivity.
  - vm_compute. reflexivity.
Defined.

(** X7: a solve calls the oracle at most twice, always on the graph it has
    built and between the supersource and the supersink.  It makes no
    call exactly when the build fails (the result is then the build
    error) or the instance is trivial (the result is then "ok");
    otherwise it makes one call of [maximum_flow], followed by one call of
    [minimum_cut] exactly when the result is "infeasible". *)
Theorem oracle_call_protocol (order : set_order) (o : oracle) (data : instance) :
  let r := run o (solve_belts order data) in
  let cs := calls o (solve_belts order data) in
  (∃ e, build_transformed_graph order data = inl e
        ∧ cs = [] ∧ r = Error (FailedToBuild e)) ∨
  (∃ G bd, build_transformed_graph order data = inr (G, bd)
        ∧ total_expected_flow bd < TOLERANCE
        ∧ cs = [] ∧ status_of r = StatusOk) ∨
  (∃ G bd, build_transformed_graph order data = inr (G, bd)
        ∧ ¬ total_expected_flow bd < TOLERANCE
        ∧ ((cs = [CallMaximumFlow G s_super t_super]
            ∧ status_of r ≠ StatusInfeasible) ∨
           (cs = [CallMaximumFlow G s_super t_super;
                  CallMinimumCut G s_super t_super]
            ∧ status_of r = StatusInfeasible))).
Proof.
  cbn zeta. unfold solve_belts.
  destruct (build_transformed_graph order data) as [e|[G bd]] eqn:Hb.
  { left. exists e. by cbn. }
  right.
  destruct (Qlt_b (total_expected_flow bd) TOLERANCE) eqn:Htriv.
  { apply Qlt_b_true in Htriv. left. exists G, bd. by cbn. }
  apply Qlt_b_false in Htriv.
  right. exists G, bd. split; [done|]. split; [by apply Qle_not_lt|].
  cbn [run calls].
  destruct (maximum_flow o G s_super t_super) as [mf fd| |];
    [|left; by cbn|left; by cbn].
  destruct (Qlt_b mf (total_expected_flow bd - TOLERANCE)); [|left; by cbn].
  right. unfold format_infeasible. cbn [run calls].
  by destruct (minimum_cut o G s_super t_super).
Qed.

(** X8: the status is "error" exactly when the build raises or
    [nx.maximum_flow] raises on a non-trivial instance; the message then
    tells which. *)
Theorem error_iff_build_or_oracle_fails (order : set_order) (o : oracle)
    (data : instance) :
  ∀ msg, run o (solve_belts order data) = Error msg ↔
    (∃ e, build_transformed_graph order data = inl e
          ∧ msg = FailedToBuild e) ∨
    (∃ G bd, build_transformed_graph order data = inr (G, bd)
       ∧ ¬ total_expected_flow bd < TOLERANCE
       ∧ ((maximum_flow o G s_super t_super = FlowNetworkXUnbounded
           ∧ msg = FlowUnbounded)
          ∨ (maximum_flow o G s_super t_super = FlowNetworkXError
             ∧ msg = MaxFlowFailed))).
Proof.
  intros msg. unfold solve_belts.
  destruct (build_transformed_graph order data) as [e|[G bd]] eqn:Hb.
  { cbn [run]. split.
    - intros [= <-]. left. eauto.
    - intros [(e' & [= <-] & ->)|(G & bd & ? & _)]; [done | discriminate]. }
  destruct (Qlt_b (total_expected_flow bd) TOLERANCE) eqn:Htriv.
  { apply Qlt_b_true in Htriv. cbn [run format_success]. split; [done|].
    intros [(e' & ? & _)|(G' & bd' & [= <- <-] & Hnt & _)]; [discriminate|].
    done. }
  apply Qlt_b_false in Htriv. cbn [run].
  destruct (maximum_flow o G s_super t_super) as [mf fd| |] eqn:Hmf.
  - destruct (Qlt_b mf (total_expected_flow bd - TOLERANCE)).
    + unfold format_infeasible. cbn [run].
      destruct (minimum_cut o G s_super t_super); cbn [run]; (split; [done|]);
        intros [(e' & ? & _)|(G' & bd' & [= <- <-] & _ & [[? _]|[? _]])];
        congruence.
    + cbn [run format_success]. split; [done|].
      intros [(e' & ? & _)|(G' & bd' & [= <- <-] & _ & [[? _]|[? _]])];
        congruence.
  - cbn [run]. split.
    + intros [= <-]. right. exists G, bd. split; [done|].
      split; [by apply Qle_not_lt|]. by left.
    + intros [(e' & ? & _)|(G' & bd' & [= <- <-] & _ & [[_ ->]|[? _]])];
        congruence.
  - cbn [run]. split.
    + intros [= <-]. right. exists G, bd. split; [done|].
      split; [by apply Qle_not_lt|]. by right.
    + intros [(e' & ? & _)|(G' & bd' & [= <- <-] & _ & [[? _]|[_ ->]])];
        congruence.
Qed.

(** * Further properties of the certificate *)

Lemma node_map_fold_values (split : list (string * (string * string)))
    (m : gmap string string) (k x : string) :
  foldl (λ m '(v, (v_in, v_out)), <[v_out := v]> (<[v_in := v]> m)) m split
    !! k = Some x →
  m !! k = Some x ∨ x ∈ split.*1.
Proof.
  revert m. induction split as [|[w [wi wo]] split IH]; intros m; cbn [foldl];
    [auto|].
  intros [Hm|Hx]%IH; [|right; rewrite fmap_cons; by right].
  rewrite fmap_cons. cbn [fst].
  destruct (decide (wo = k)) as [->|Hwo].
  { rewrite lookup_insert_eq in Hm. injection Hm as ->. right. left. }
  rewrite lookup_insert_ne in Hm by done.
  destruct (decide (wi = k)) as [->|Hwi].
  { rewrite lookup_insert_eq in Hm. injection Hm as ->. right. left. }
  rewrite lookup_insert_ne in Hm by done. by left.
Qed.

Lemma is_split_spec (data : instance) (snk : string) (n : string) :
  is_split data snk n = true ↔
  n ∈ (node_caps data).*1 ∧ n ≠ snk ∧ n ∉ (sources data).*1.
Proof.
  unfold is_split.
  rewrite andb_true_iff, negb_true_iff, orb_false_iff, bool_decide_eq_true,
    bool_decide_eq_false.
  assert (dict_has n (sources data) = false ↔ n ∉ (sources data).*1) as ->;
    [|done].
  rewrite <- dict_has_true. by destruct (dict_has n (sources data)).
Qed.

(** X9: every node reported in [tight_nodes] is a node with a cap that is
    neither the sink nor a source, and it is also reported in
    [cut_reachable]. *)
Theorem tight_nodes_are_reachable_capped_nodes (order : set_order) (o : oracle)
    (data : instance) (c : certificate) :
  run o (solve_belts order data) = Infeasible c →
  ∀ v, v ∈ tight_nodes c →
    v ∈ cut_reachable c
    ∧ v ∈ (node_caps data).*1
    ∧ sink data ≠ Some v
    ∧ v ∉ (sources data).*1.
Proof.
  intros (G & bd & mf & fd & re & un & Hb & _ & _ & _ & ->)%solve_infeasible_inv.
  apply build_inv in Hb as (snk & Hsink & _ & -> & ->).
  intros v. cbn [certify tight_nodes cut_reachable built_data split_nodes].
  rewrite elem_of_sorted_set, elem_of_list_to_set, tight_nodes_loop_spec.
  intros ([w [wi wo]] & -> & Hin)%list_elem_of_fmap.
  apply list_elem_of_filter in Hin as [[Hre _] Hin]. cbn [fst snd] in *.
  apply built_split_elem in Hin as (Hs & -> & ->).
  pose proof Hs as (Hcaps & Hne & Hsrc)%is_split_spec.
  split; [|split; [done|split; [|done]]].
  - apply elem_of_sorted_set, cut_reachable_loop_spec.
    exists (v_in_of w). split; [by rewrite iter_perm, elem_of_elements|].
    split; [|apply v_in_of_ne_super].
    cbn [node_map]. unfold make_node_map. apply node_map_fold_facet.
    + intros w' wi wo Hw'. apply built_split_elem in Hw'. tauto.
    + apply list_elem_of_fmap. exists (w, (v_in_of w, v_out_of w)).
      split; [done|]. by apply built_split_elem.
  - intros Heq. unfold sink_of in Hsink. rewrite Heq in Hsink.
    destruct (decide (w = EmptyString)); by simplify_eq.
Qed.

Lemma capped_hub_infeasible :
  run capped_hub_nx (solve_belts elements_order capped_hub) =
  Infeasible {| cut_reachable := ["M"; "S"]%string;
                demand_balance := 10 - 3;
                tight_nodes := ["M"%string];
                tight_edges := [] |}.
Proof. vm_compute. reflexivity. Qed.

Lemma tight_nodes_are_reachable_capped_nodes_witness :
  "M"%string ∈ ["M"; "S"]%string
  ∧ "M"%string ∈ (node_caps capped_hub).*1
  ∧ sink capped_hub ≠ Some "M"%string
  ∧ "M"%string ∉ (sources capped_hub).*1.
Proof.
  apply (tight_nodes_are_reachable_capped_nodes elements_order capped_hub_nx
           capped_hub _ capped_hub_infeasible "M"%string).
  cbn [tight_nodes]. left.
Defined.

(** X10: [cut_reachable] lists identifiers of the instance only: each entry
    is a source, the sink, an end of an input edge or a node with a cap;
    the supersource, the supersink and the facet names are mapped back or
    left out. *)
Theorem cut_reachable_lists_instance_nodes (order : set_order) (o : oracle)
    (data : instance) (c : certificate) :
  run o (solve_belts order data) = Infeasible c →
  ∀ x, x ∈ cut_reachable c →
    x ∈ (sources data).*1 ∨ sink data = Some x
    ∨ (∃ e, e ∈ edges data ∧ (x = e_from e ∨ x = e_to e))
    ∨ x ∈ (node_caps data).*1.
Proof.
  intros (G & bd & mf & fd & re & un & Hb & _ & _ & _ & ->)%solve_infeasible_inv.
  apply build_inv in Hb as (snk & Hsink & _ & -> & ->).
  intros x. cbn [certify cut_reachable built_data node_map].
  rewrite elem_of_sorted_set, cut_reachable_loop_spec.
  intros (n & _ & Hnm & Hs & Ht). unfold make_node_map in Hnm.
  apply node_map_fold_values in Hnm as [Hnm|Hx].
  - rewrite !lookup_insert_ne in Hnm by done.
    rewrite identity_map_lookup in Hnm.
    destruct (bool_decide (n ∈ all_nodes_of data snk)) eqn:Hn; [|done].
    injection Hnm as <-. apply bool_decide_eq_true in Hn.
    apply elem_of_all_nodes in Hn as [?|[->|[?|?]]]; auto.
    right; left. unfold sink_of in Hsink.
    destruct (sink data) as [s|]; [|done].
    destruct (decide (s = EmptyString)); by simplify_eq.
  - apply list_elem_of_fmap in Hx as ([w [wi wo]] & -> & Hin).
    apply built_split_elem in Hin as (Hsplit%is_split_spec & _). cbn [fst].
    tauto.
Qed.

Lemma cut_reachable_lists_instance_nodes_witness :
  "A"%string ∈ (sources three_belts).*1 ∨ sink three_belts = Some "A"%string
  ∨ (∃ e, e ∈ edges three_belts ∧ ("A"%string = e_from e ∨ "A"%string = e_to e))
  ∨ "A"%string ∈ (node_caps three_belts).*1.
Proof.
  apply (cut_reachable_lists_instance_nodes elements_order three_belts_nx
           three_belts _ three_belts_infeasible "A"%string).
  cbn [cut_reachable]. left.
Defined.

(** X11: when [nx.minimum_cut] raises, the certificate of the fallback has
    an empty [cut_reachable] and no [tight_nodes]; unless an input edge
    starts at a node called [s_super], it has no [tight_edges] either, so
    only the deficit is reported. *)
Theorem fallback_certificate_is_empty (order : set_order) (o : oracle)
    (data : instance) (G : DiGraph) (bd : build_data) (c : certificate) :
  build_transformed_graph order data = inr (G, bd) →
  minimum_cut o G s_super t_super = CutNetworkXError →
  run o (solve_belts order data) = Infeasible c →
  cut_reachable c = [] ∧ tight_nodes c = [] ∧
  ((∀ e, e ∈ edges data → e_from e ≠ s_super) → tight_edges c = []).
Proof.
  intros Hb Hcut
    (G' & bd' & mf & fd & re & un & Hb' & _ & _ & Hpart & ->)%solve_infeasible_inv.
  rewrite Hb in Hb'. injection Hb' as <- <-.
  destruct Hpart as [[cv Hok]|(_ & -> & ->)]; [congruence|].
  assert (∀ S : gset string, S = ∅ → sorted (order S) = []) as Hempty.
  { intros S ->. assert (order ∅ = []) as ->; [|done].
    apply Permutation_nil_r. rewrite iter_perm. by rewrite elements_empty. }
  apply build_inv in Hb as (snk & Hsink & _ & -> & ->).
  cbn [certify cut_reachable tight_nodes tight_edges built_data split_nodes
       original_edges node_map].
  split; [|split].
  - apply Hempty. apply set_eq. intros x.
    rewrite cut_reachable_loop_spec. split; [|by intros ?%elem_of_empty].
    intros (n & Hn & _ & Hs & _).
    rewrite iter_perm, elem_of_elements, elem_of_singleton in Hn. done.
  - apply Hempty. apply set_eq. intros x.
    rewrite elem_of_list_to_set, tight_nodes_loop_spec.
    split; [|by intros ?%elem_of_empty].
    intros ([w [wi wo]] & -> & Hin)%list_elem_of_fmap.
    apply list_elem_of_filter in Hin as [[Hre _] Hin]. cbn [fst snd] in *.
    apply built_split_elem in Hin as (_ & -> & _).
    apply elem_of_singleton in Hre. by apply v_in_of_ne_super in Hre.
  - intros Hfrom. rewrite tight_edges_loop_spec.
    destruct (filter _ _) as [|r rs] eqn:Hf; [done|].
    assert (r ∈ filter (λ r, crosses {[s_super]}
                           (list_to_set (built_graph data snk).*1 ∖ {[s_super]})
                           (oe_mapped r))
                  (es_orig (edges_state data snk))) as Hr.
    { rewrite Hf. left. }
    apply list_elem_of_filter in Hr as [[Hre _] Hr].
    change (es_orig (edges_state data snk))
      with (original_edges (built_data order data snk)) in Hr.
    rewrite original_edges_built in Hr.
    apply list_elem_of_fmap in Hr as (e & -> & He).
    cbn [record_of oe_mapped mapped_edge fst] in Hre.
    apply elem_of_singleton in Hre. unfold facet_out in Hre.
    destruct (is_split data snk (e_from e)).
    + by apply v_out_of_ne_super in Hre.
    + by apply Hfrom in He.
Qed.

Lemma fallback_certificate_is_empty_witness :
  let failing := {| maximum_flow := maximum_flow scenario_b_nx;
                    minimum_cut := λ _ _ _, CutNetworkXError |} in
  let c := certify elements_order {[ s_super ]}
             (list_to_set (built_graph scenario_b "B").*1 ∖ {[ s_super ]})
             (10 - 5) (built_data elements_order scenario_b "B") in
  cut_reachable c = [] ∧ tight_nodes c = [] ∧
  ((∀ e, e ∈ edges scenario_b → e_from e ≠ s_super) → tight_edges c = []).
Proof.
  cbn zeta.
  apply (fallback_certificate_is_empty elements_order
           {| maximum_flow := maximum_flow scenario_b_nx;
              minimum_cut := λ _ _ _, CutNetworkXError |}
           scenario_b (built_graph scenario_b "B")
           (built_data elements_order scenario_b "B")).
  - vm_compute. reflexivity.
  - reflexivity.
  - vm_compute. reflexivity.
Defined.

(** * Node splitting *)

Lemma split_fold_capacity_other (data : instance) (snk : string)
    (caps : list (string * Q)) (st : split_state) (u v : string) :
  (∀ n cap, (n, cap) ∈ caps → (v_in_of n, v_out_of n) ≠ (u, v)) →
  edge_capacity (sp_G (foldl (split_step data snk) st caps)) u v =
  edge_capacity (sp_G st) u v.
Proof.
  revert st. induction caps as [|[n cap] caps IH]; intros st Hne; [done|].
  cbn [foldl].
  rewrite IH by (intros n' cap' Hin; apply (Hne n' cap'); by right).
  unfold split_step.
  destruct (bool_decide (n = snk) || dict_has n (sources data)); [done|].
  cbn [sp_G]. apply edge_capacity_add_edge_ne. apply (Hne n cap). left.
Qed.

Lemma split_fold_capacity (data : instance) (snk : string)
    (caps : list (string * Q)) (st : split_state) (n : string) (cap : Q) :
  NoDup caps.*1 → (n, cap) ∈ caps →
  bool_decide (n = snk) || dict_has n (sources data) = false →
  edge_capacity (sp_G (foldl (split_step data snk) st caps))
    (v_in_of n) (v_out_of n) = Some (Finite cap).
Proof.
  intros Hnd Hin Hskip. revert st.
  induction caps as [|[n0 cap0] caps IH]; intros st; [by apply elem_of_nil in Hin|].
  rewrite fmap_cons in Hnd. inversion Hnd as [|? ? Hn0 Hnd']; subst.
  cbn [foldl]. apply elem_of_cons in Hin as [[= <- <-]|Hin].
  - rewrite split_fold_capacity_other.
    + unfold split_step. rewrite Hskip. cbn [sp_G].
      apply edge_capacity_add_edge_eq.
    + intros n' cap' Hin' [= Heq%v_in_of_inj _]. subst n'.
      apply Hn0. apply list_elem_of_fmap. by exists (n, cap').
  - by apply IH.
Qed.

Section split_node.
Variables (data : instance) (snk : string).
Hypothesis Hclear : names_clear data snk.
Variable n : string.
Hypothesis Hsplit : is_split data snk n = true.

Lemma facet_out_not_split_in (w : string) :
  w ∈ all_nodes_of data snk → facet_out data snk w ≠ v_in_of n.
Proof using Hclear Hsplit.
  intros Hw. unfold facet_out.
  destruct (is_split data snk w).
  - apply not_eq_sym, v_in_of_ne_out.
  - pose proof (reserved_false _ _ _ (Hclear w Hw)) as (_ & _ & Hf).
    by destruct (Hf n Hsplit).
Qed.

Lemma facet_in_not_split_out (w : string) :
  w ∈ all_nodes_of data snk → facet_in data snk w ≠ v_out_of n.
Proof using Hclear Hsplit.
  intros Hw. unfold facet_in.
  destruct (is_split data snk w).
  - apply v_in_of_ne_out.
  - pose proof (reserved_false _ _ _ (Hclear w Hw)) as (_ & _ & Hf).
    by destruct (Hf n Hsplit).
Qed.

Lemma unsplit_facet_out_not_split_out (w : string) :
  w ∈ all_nodes_of data snk → is_split data snk w = false →
  facet_out data snk w ≠ v_out_of n.
Proof using Hclear Hsplit.
  intros Hw Hns. unfold facet_out. rewrite Hns.
  pose proof (reserved_false _ _ _ (Hclear w Hw)) as (_ & _ & Hf).
  by destruct (Hf n Hsplit).
Qed.
End split_node.

Lemma balance_keys_all_nodes (data : instance) (snk : string) (v : string) (d : Q) :
  (v, d) ∈ es_lo (edges_state data snk) → v ∈ all_nodes_of data snk.
Proof.
  intros Hin.
  assert (v ∈ (es_lo (edges_state data snk)).*1) as Hk.
  { apply list_elem_of_fmap. by exists (v, d). }
  apply edges_fold_lo_keys in Hk as [Hk|(e & He & Hv)].
  - by apply elem_of_nil in Hk.
  - apply elem_of_all_nodes. right; right; left. eauto.
Qed.

Lemma source_not_split (data : instance) (snk : string) (s : string) (q : Q) :
  (s, q) ∈ sources data → is_split data snk s = false.
Proof.
  intros Hin. destruct (is_split data snk s) eqn:Hs; [|done].
  apply is_split_spec in Hs as (_ & _ & Hn). exfalso. apply Hn.
  apply list_elem_of_fmap. by exists (s, q).
Qed.

(** X12: node splitting.  In an accepted instance without reserved
    identifiers, a node with a cap that is neither the sink nor a source
    is represented by the edge [X_in -> X_out] whose capacity is the cap,
    and this edge is the only way through the node: nothing else leaves
    [X_in] and nothing else enters [X_out]. *)
Theorem split_node_only_path (order : set_order) (data : instance)
    (snk : string) (G : DiGraph) (bd : build_data) (n : string) (cap : Q) :
  sink_of data = Some snk →
  build_transformed_graph order data = inr (G, bd) →
  names_clear data snk →
  NoDup (node_caps data).*1 →
  (n, cap) ∈ node_caps data → n ≠ snk → n ∉ (sources data).*1 →
  edge_capacity G (v_in_of n) (v_out_of n) = Some (Finite cap) ∧
  (∀ v c, (v_in_of n, v, c) ∈ graph_edges G → v = v_out_of n) ∧
  (∀ u c, (u, v_out_of n, c) ∈ graph_edges G → u = v_in_of n).
Proof.
  intros Hsink Hb Hclear Hnd Hin Hne Hsrc.
  assert (is_split data snk n = true) as Hsplit.
  { apply is_split_spec. split; [|done].
    apply list_elem_of_fmap. by exists (n, cap). }
  destruct (built_graph_edges_origin order data G bd Hb)
    as (snk' & Hsink' & Horigin).
  assert (snk' = snk) as -> by congruence.
  apply build_inv in Hb as (snk' & Hsink'' & _ & -> & _).
  assert (snk' = snk) as -> by congruence.
  assert (snk ∈ all_nodes_of data snk) as Hsnk.
  { apply elem_of_all_nodes. tauto. }
  assert (∀ e, e ∈ edges data →
            e_from e ∈ all_nodes_of data snk ∧ e_to e ∈ all_nodes_of data snk)
    as Hends.
  { intros e He. split; apply elem_of_all_nodes; right; right; left; eauto. }
  assert (∀ s q, (s, q) ∈ sources data → s ∈ all_nodes_of data snk) as Hsources.
  { intros s q Hs. apply elem_of_all_nodes. left.
    apply list_elem_of_fmap. by exists (s, q). }
  pose proof (v_in_of_ne_super n) as [Hin_s Hin_t].
  pose proof (v_out_of_ne_super n) as [Hout_s Hout_t].
  split; [|split].
  - unfold built_graph. rewrite edge_capacity_add_edge_ne by congruence.
    unfold sources_state. rewrite sources_fold_capacity by done. cbn [fst].
    unfold demands_state. rewrite demands_fold_capacity by done. cbn [fst].
    rewrite !edge_capacity_add_node. unfold edges_state.
    rewrite edges_fold_capacity_other.
    + cbn [es_G]. unfold split_graph. apply split_fold_capacity; [done..|].
      unfold is_split in Hsplit. apply andb_true_iff in Hsplit as [_ Hs].
      by apply negb_true_iff in Hs.
    + intros e He [= Hout _]. destruct (Hends e He) as [Hu _].
      by apply (facet_out_not_split_in data snk Hclear n Hsplit) in Hu.
  - intros v c Hedge. specialize (Horigin _ Hedge).
    remember (v_in_of n, v, c) as x eqn:Hx.
    destruct Horigin as [n' cap' _ _|e He|w d Hw _|w d Hw _|s q Hs|];
      injection Hx as Hu Hv Hc.
    + apply v_in_of_inj in Hu. by subst.
    + destruct (Hends e He) as [Hfrom _].
      by apply (facet_out_not_split_in data snk Hclear n Hsplit) in Hfrom.
    + done.
    + apply balance_keys_all_nodes in Hw.
      by apply (facet_out_not_split_in data snk Hclear n Hsplit) in Hw.
    + done.
    + pose proof (reserved_false _ _ _ (Hclear snk Hsnk)) as (_ & _ & Hf).
      by destruct (Hf n Hsplit).
  - intros u c Hedge. specialize (Horigin _ Hedge).
    remember (u, v_out_of n, c) as x eqn:Hx.
    destruct Horigin as [n' cap' _ _|e He|w d Hw _|w d Hw _|s q Hs|];
      injection Hx as Hu Hv Hc.
    + apply v_out_of_inj in Hv. by subst.
    + destruct (Hends e He) as [_ Hto].
      by apply (facet_in_not_split_out data snk Hclear n Hsplit) in Hto.
    + apply balance_keys_all_nodes in Hw.
      by apply (facet_in_not_split_out data snk Hclear n Hsplit) in Hw.
    + done.
    + pose proof (source_not_split data snk s q Hs) as Hns.
      by apply (unsplit_facet_out_not_split_out data snk Hclear n Hsplit)
        in Hns; [|by apply (Hsources s q)].
    + done.
Qed.

Lemma capped_hub_names_clear : names_clear capped_hub "T".
Proof. apply (bool_decide_unpack _). vm_compute. exact I. Qed.

Lemma capped_hub_builds :
  build_transformed_graph elements_order capped_hub =
  inr (built_graph capped_hub "T", built_data elements_order capped_hub "T").
Proof. vm_compute. reflexivity. Qed.

Lemma split_node_only_path_witness :
  let G := built_graph capped_hub "T" in
  edge_capacity G (v_in_of "M") (v_out_of "M") = Some (Finite 3) ∧
  (∀ v c, (v_in_of "M", v, c) ∈ graph_edges G → v = v_out_of "M") ∧
  (∀ u c, (u, v_out_of "M", c) ∈ graph_edges G → u = v_in_of "M").
Proof.
  cbn zeta.
  apply (split_node_only_path elements_order capped_hub "T"
           (built_graph capped_hub "T")
           (built_data elements_order capped_hub "T") "M" 3).
  - reflexivity.
  - exact capped_hub_builds.
  - exact capped_hub_names_clear.
  - cbn. apply NoDup_singleton.
  - left.
  - discriminate.
  - cbn. intros H. apply list_elem_of_singleton in H. discriminate H.
Defined.

(** * Bound compliance *)

(** X13: bound compliance.  In an accepted instance without reserved
    identifiers, when the flow assignment is feasible on the transformed
    graph, the flow that [format_success] computes for the last edge
    between two nodes is at least the lower bound of the edge and, when
    the edge has an upper bound, at most that bound plus ε (at most the
    bound itself when [upper - lower >= ε]). *)
Theorem reported_flow_within_bounds (order : set_order) (data : instance)
    (snk : string) (G : DiGraph) (bd : build_data)
    (pre post : list edge) (e : edge) (flow_dict : flow_assignment) :
  sink_of data = Some snk →
  build_transformed_graph order data = inr (G, bd) →
  names_clear data snk →
  edges data = pre ++ e :: post →
  (∀ e', e' ∈ post → ¬ parallel e e') →
  respects G flow_dict →
  ∃ r, r ∈ original_edges bd
    ∧ oe_orig r = (e_from e, e_to e)
    ∧ lower_of e <= edge_flow flow_dict r
    ∧ ∀ hi, e_upper e = Some hi →
        edge_flow flow_dict r <= hi + TOLERANCE
        ∧ (TOLERANCE <= hi - lower_of e → edge_flow flow_dict r <= hi).
Proof.
  intros Hsink Hb Hclear Hedges Hlast Hresp.
  apply build_inv in Hb as (snk' & Hsink' & Hok & -> & ->).
  assert (snk' = snk) as -> by congruence.
  assert (e ∈ edges data) as He.
  { rewrite Hedges. apply elem_of_app. right. left. }
  assert (e_from e ∈ all_nodes_of data snk ∧ e_to e ∈ all_nodes_of data snk)
    as [Hu Hv].
  { split; apply elem_of_all_nodes; right; right; left; eauto. }
  exists (record_of data snk e). split.
  { rewrite original_edges_built. apply list_elem_of_fmap. eauto. }
  split; [done|].
  assert (edge_capacity (built_graph data snk)
            (mapped_edge data snk e).1 (mapped_edge data snk e).2
          = Some (edge_cap e)) as Hcap.
  { apply (built_graph_capacity_last data snk pre post e); [done| | |].
    - intros e' He' Heq. apply (Hlast e' He').
      apply (mapped_edge_inj data snk Hclear); [done| |done].
      rewrite Hedges. apply elem_of_app. right. by right.
    - apply (facet_not_super data snk Hclear (e_from e) Hu).
    - apply (facet_not_super data snk Hclear (e_to e) Hv). }
  assert (¬ bad_bounds e) as Hgood.
  { rewrite Forall_forall in Hok. by apply Hok. }
  pose proof TOLERANCE_pos as Hpos.
  rewrite edge_flow_assigned. cbn [record_of oe_mapped oe_lo].
  destruct (assigned flow_dict (mapped_edge data snk e)) as [f|] eqn:Hf.
  - destruct (mapped_edge data snk e) as [um vm] eqn:Hkey.
    destruct (Hresp um vm f Hf) as (Hf0 & c & Hc & Hle).
    cbn [fst snd] in Hcap. rewrite Hcap in Hc. injection Hc as <-.
    unfold default. cbn [from_option id]. split; [lra|].
    intros hi Hhi. unfold edge_cap, upper_of in Hle.
    unfold bad_bounds in Hgood. rewrite Hhi in Hle, Hgood.
    cbn [cap_sub cap_lt] in Hle.
    destruct (Qlt_le_dec (hi - lower_of e) TOLERANCE) as [Hlt|Hge];
      cbn [cap_ge] in Hle; split; intros; lra.
  - unfold default. cbn [from_option id]. split; [lra|].
    intros hi Hhi. unfold bad_bounds in Hgood. rewrite Hhi in Hgood.
    split; intros; lra.
Qed.

(** * Order of the reported flows *)

Lemma ok_flows_form (order : set_order) (o : oracle) (data : instance)
    (G : DiGraph) (bd : build_data) (m : Q) (fl : list flow_entry) :
  build_transformed_graph order data = inr (G, bd) →
  run o (solve_belts order data) = Ok m fl →
  ∃ flow_dict,
    fl = map (flow_entry_of flow_dict)
           (filter (λ r, TOLERANCE < edge_flow flow_dict r) (original_edges bd)).
Proof.
  intros Hb Hrun. unfold solve_belts in Hrun. rewrite Hb in Hrun.
  destruct (Qlt_b (total_expected_flow bd) TOLERANCE).
  - cbn [run format_success] in Hrun. injection Hrun as _ <-.
    exists ∅. by rewrite flows_loop_spec.
  - cbn [run] in Hrun.
    destruct (maximum_flow o G s_super t_super) as [mf fd| |];
      cbn [run] in Hrun; try discriminate.
    destruct (Qlt_b mf (total_expected_flow bd - TOLERANCE)).
    + cbn [format_infeasible run] in Hrun.
      destruct (minimum_cut o G s_super t_super); cbn [run] in Hrun;
        discriminate.
    + cbn [run format_success] in Hrun. injection Hrun as _ <-.
      exists fd. by rewrite flows_loop_spec.
Qed.

(** X14: the [flows] of an "ok" result name input edges only, in the order
    of the input and at most once per input edge. *)
Theorem flows_follow_input_order (order : set_order) (o : oracle)
    (data : instance) (m : Q) (fl : list flow_entry) :
  run o (solve_belts order data) = Ok m fl →
  sublist (map (λ x, (f_from x, f_to x)) fl)
          (map (λ e, (e_from e, e_to e)) (edges data))
  ∧ Forall (λ x, TOLERANCE < f_flow x) fl.
Proof.
  intros Hrun.
  assert (∃ G bd, build_transformed_graph order data = inr (G, bd))
    as (G & bd & Hb).
  { unfold solve_belts in Hrun.
    destruct (build_transformed_graph order data) as [?|[G bd]]; [done|eauto]. }
  destruct (ok_flows_form order o data G bd m fl Hb Hrun)
    as (fd & ->).
  apply build_inv in Hb as (snk & _ & _ & _ & ->).
  rewrite original_edges_built. split.
  - rewrite map_map.
    assert (map (λ e, (e_from e, e_to e)) (edges data) =
            map (λ r, (f_from (flow_entry_of fd r), f_to (flow_entry_of fd r)))
              (map (record_of data snk) (edges data))) as ->.
    { by rewrite map_map. }
    apply fmap_sublist, sublist_filter.
  - apply Forall_forall. intros x (r & -> & Hr)%list_elem_of_fmap.
    by apply list_elem_of_filter in Hr as [Hgt _].
Qed.

Lemma flows_follow_input_order_witness :
  sublist (map (λ x, (f_from x, f_to x))
             [ {| f_from := "A"; f_to := "B"; f_flow := 10 + 0 |} ])
          (map (λ e, (e_from e, e_to e)) (edges scenario_a))
  ∧ Forall (λ x, TOLERANCE < f_flow x)
      [ {| f_from := "A"; f_to := "B"; f_flow := 10 + 0 |} ].
Proof.
  apply (flows_follow_input_order elements_order scenario_a_nx scenario_a
           (0 + 10)).
  vm_compute. reflexivity.
Defined.

Lemma doubled_belt_builds :
  build_transformed_graph elements_order doubled_belt =
  inr (built_graph doubled_belt "B", built_data elements_order doubled_belt "B").
Proof. vm_compute. reflexivity. Qed.

Lemma doubled_belt_flow_respects :
  respects (built_graph doubled_belt "B")
    {[ "A"%string := {[ "B"%string := 7 ]} ]}.
Proof.
  intros u v f Hf. unfold assigned in Hf. cbn [fst snd] in Hf.
  apply bind_Some in Hf as (row & Hrow & Hf).
  apply lookup_singleton_Some in Hrow as [<- <-].
  apply lookup_singleton_Some in Hf as [<- <-].
  split; [vm_compute; discriminate|].
  exists (Finite 7). split; [vm_compute; reflexivity|].
  cbn. vm_compute. discriminate.
Qed.

Lemma reported_flow_within_bounds_witness :
  let e := belt "A" "B" None (Some 7) in
  let fd : flow_assignment := {[ "A"%string := {[ "B"%string := 7 ]} ]} in
  ∃ r, r ∈ original_edges (built_data elements_order doubled_belt "B")
    ∧ oe_orig r = (e_from e, e_to e)
    ∧ lower_of e <= edge_flow fd r
    ∧ ∀ hi, e_upper e = Some hi →
        edge_flow fd r <= hi + TOLERANCE
        ∧ (TOLERANCE <= hi - lower_of e → edge_flow fd r <= hi).
Proof.
  cbn zeta.
  apply (reported_flow_within_bounds elements_order doubled_belt "B"
           (built_graph doubled_belt "B")
           (built_data elements_order doubled_belt "B")
           [belt "A" "B" (Some 1) (Some 3)] []).
  - reflexivity.
  - exact doubled_belt_builds.
  - exact doubled_belt_names_clear.
  - reflexivity.
  - intros e' He'. inversion He'.
  - exact doubled_belt_flow_respects.
Defined.

(** * The edges at the supersource and the supersink *)

Lemma sources_fold_untouched (data : instance) (snk : string)
    (ss : list (string * Q)) (st : DiGraph * Q) (u w : string) :
  (∀ p, p ∈ ss → (s_super, facet_out data snk p.1) ≠ (u, w)) →
  edge_capacity (foldl (source_step data snk) st ss).1 u w =
  edge_capacity st.1 u w.
Proof.
  revert st. induction ss as [|p ss IH]; intros st Hne; [done|].
  cbn [foldl]. rewrite IH by (intros p' Hp'; apply Hne; by right).
  unfold source_step. cbn [fst]. apply edge_capacity_add_edge_ne.
  apply Hne. left.
Qed.

Lemma demand_step_untouched (data : instance) (snk : string)
    (st : DiGraph * Q) (vd : string * Q) (u w : string) :
  (s_super, facet_in data snk vd.1) ≠ (u, w) →
  (facet_out data snk vd.1, t_super) ≠ (u, w) →
  edge_capacity (demand_step data snk st vd).1 u w = edge_capacity st.1 u w.
Proof.
  intros H1 H2. unfold demand_step.
  destruct (Qgt_b vd.2 TOLERANCE);
    [by apply edge_capacity_add_edge_ne|].
  destruct (Qlt_b vd.2 (- TOLERANCE)); [|done].
  by apply edge_capacity_add_edge_ne.
Qed.

Lemma demands_fold_untouched (data : instance) (snk : string)
    (ds : list (string * Q)) (st : DiGraph * Q) (u w : string) :
  (∀ vd, vd ∈ ds → (s_super, facet_in data snk vd.1) ≠ (u, w)
                   ∧ (facet_out data snk vd.1, t_super) ≠ (u, w)) →
  edge_capacity (foldl (demand_step data snk) st ds).1 u w =
  edge_capacity st.1 u w.
Proof.
  revert st. induction ds as [|vd ds IH]; intros st Hne; [done|].
  cbn [foldl]. rewrite IH by (intros p' Hp'; apply Hne; by right).
  destruct (Hne vd) as [H1 H2]; [left|]. by apply demand_step_untouched.
Qed.

Lemma NoDup_keys_split {V : Type} (l1 l2 : list (string * V)) (k : string)
    (x : V) (p : string * V) :
  NoDup (l1 ++ (k, x) :: l2).*1 → p ∈ l1 ++ l2 → p.1 ≠ k.
Proof.
  rewrite fmap_app, fmap_cons. cbn [fst]. intros Hnd Hp Heq. subst k.
  apply NoDup_app in Hnd as (_ & Hdisj & Hnd2).
  inversion Hnd2 as [|? ? Hnotin _]; subst.
  apply elem_of_app in Hp as [Hp|Hp].
  - apply (Hdisj p.1); [apply list_elem_of_fmap; eauto | left].
  - apply Hnotin. apply list_elem_of_fmap. eauto.
Qed.

Lemma edges_fold_lo_NoDup (data : instance) (snk : string) (es : list edge)
    (st : edge_state) :
  NoDup (es_lo st).*1 →
  NoDup (es_lo (foldl (edge_step data snk) st es)).*1.
Proof.
  revert st. induction es as [|e es IH]; intros st Hnd; [done|].
  cbn [foldl]. apply IH. cbn [edge_step es_lo]. unfold demand_add.
  by do 2 apply dict_set_NoDup.
Qed.

(** X16: for a source whose identifier is not [t_super], the edge from the
    supersource to the source has the supply of the source as capacity.
    This holds whatever the balance of the source: a demand edge that the
    builder has added from the supersource to the same node is
    overwritten. *)
Theorem source_edge_capacity (order : set_order) (data : instance)
    (G : DiGraph) (bd : build_data) (s : string) (supply : Q) :
  build_transformed_graph order data = inr (G, bd) →
  NoDup (sources data).*1 →
  (s, supply) ∈ sources data →
  s ≠ t_super →
  edge_capacity G s_super s = Some (Finite supply).
Proof.
  intros (snk & Hsink & _ & -> & _)%build_inv Hnd Hin Hne.
  unfold built_graph. rewrite edge_capacity_add_edge_ne by congruence.
  unfold sources_state.
  apply list_elem_of_split in Hin as (l1 & l2 & Hsplit).
  assert (∀ p, p ∈ l1 ++ l2 → facet_out data snk p.1 ≠ s) as Hother.
  { intros [s' q'] Hp. cbn [fst].
    rewrite Hsplit in Hnd. pose proof (NoDup_keys_split _ _ _ _ _ Hnd Hp) as Hk.
    unfold facet_out. rewrite (source_not_split data snk s' q'); [done|].
    rewrite Hsplit. apply elem_of_app in Hp as [?|?]; apply elem_of_app;
      [by left | right; by right]. }
  rewrite Hsplit, foldl_app. cbn [foldl].
  rewrite sources_fold_untouched.
  - unfold source_step at 1. cbn [fst snd]. unfold facet_out.
    rewrite (source_not_split data snk s supply).
    + apply edge_capacity_add_edge_eq.
    + rewrite Hsplit. apply elem_of_app. right. left.
  - intros p Hp [= Heq]. apply (Hother p); [|done].
    apply elem_of_app. by right.
Qed.

Lemma source_edge_capacity_witness :
  edge_capacity (built_graph doubled_belt "B") s_super "A"
  = Some (Finite 10).
Proof.
  apply (source_edge_capacity elements_order doubled_belt
           (built_graph doubled_belt "B")
           (built_data elements_order doubled_belt "B")).
  - exact doubled_belt_builds.
  - cbn. apply NoDup_singleton.
  - left.
  - discriminate.
Defined.

(** X17: in an accepted instance without reserved identifiers, a node
    whose balance [d] exceeds ε and which is not a source gets the edge
    [s_super -> in(node)] of capacity [d]; a node whose balance is below
    [-ε] and which is not the sink gets the edge [out(node) -> t_super]
    of capacity [-d]. *)
Theorem demand_and_surplus_edges (order : set_order) (data : instance)
    (snk : string) (G : DiGraph) (bd : build_data) (v : string) (d : Q) :
  sink_of data = Some snk →
  build_transformed_graph order data = inr (G, bd) →
  names_clear data snk →
  (v, d) ∈ es_lo (edges_state data snk) →
  (TOLERANCE < d → v ∉ (sources data).*1 →
   edge_capacity G s_super (facet_in data snk v) = Some (Finite d)) ∧
  (d < - TOLERANCE → v ≠ snk →
   edge_capacity G (facet_out data snk v) t_super = Some (Finite (- d))).
Proof.
  intros Hsink Hb Hclear Hin.
  apply build_inv in Hb as (snk' & Hsink' & _ & -> & _).
  assert (snk' = snk) as -> by congruence.
  pose proof TOLERANCE_pos as Hpos.
  assert (NoDup (es_lo (edges_state data snk)).*1) as Hnd.
  { apply edges_fold_lo_NoDup. constructor. }
  pose proof (balance_keys_all_nodes data snk v d Hin) as Hv.
  pose proof (facet_not_super data snk Hclear v Hv) as [Hvs Hvt].
  assert (snk ∈ all_nodes_of data snk) as Hsnk.
  { apply elem_of_all_nodes. tauto. }
  apply list_elem_of_split in Hin as (l1 & l2 & Hsplit).
  assert (∀ p, p ∈ l1 ++ l2 →
            p.1 ∈ all_nodes_of data snk ∧ p.1 ≠ v) as Hother.
  { intros [v' d'] Hp. split.
    - apply (balance_keys_all_nodes data snk v' d'). rewrite Hsplit.
      apply elem_of_app in Hp as [?|?]; apply elem_of_app;
        [by left | right; by right].
    - rewrite Hsplit in Hnd. apply (NoDup_keys_split _ _ _ _ _ Hnd Hp). }
  unfold built_graph, sources_state, demands_state.
  rewrite facet_in_sink. split.
  - intros Hd Hsrc.
    rewrite edge_capacity_add_edge_ne by congruence.
    rewrite sources_fold_untouched.
    2:{ intros [s q] Hs [= Heq]. cbn [fst] in Heq.
        assert (s ∈ all_nodes_of data snk) as Hs'.
        { apply elem_of_all_nodes. left. apply list_elem_of_fmap.
          by exists (s, q). }
        unfold facet_out in Heq.
        rewrite (source_not_split data snk s q Hs) in Heq.
        assert (facet_in data snk s = s) as Hfs.
        { unfold facet_in. by rewrite (source_not_split data snk s q Hs). }
        rewrite <- Hfs in Heq.
        apply (facet_in_inj data snk Hclear) in Heq; [|done..].
        subst s. apply Hsrc. apply list_elem_of_fmap. by exists (v, q). }
    cbn [fst]. rewrite Hsplit, foldl_app. cbn [foldl].
    rewrite demands_fold_untouched.
    + unfold demand_step at 1. cbn [fst snd].
      apply Qgt_b_true in Hd. rewrite Hd. cbn [fst].
      apply edge_capacity_add_edge_eq.
    + intros p Hp. destruct (Hother p) as [Hp1 Hp2];
        [apply elem_of_app; by right|].
      split.
      * intros [= Heq]. by apply (facet_in_inj data snk Hclear) in Heq.
      * intros [= Heq _].
        by apply (facet_not_super data snk Hclear p.1 Hp1) in Heq.
  - intros Hd Hne.
    rewrite edge_capacity_add_edge_ne.
    2:{ intros [= Heq]. apply Hne.
        apply (facet_out_inj data snk Hclear); [done..|].
        rewrite <- Heq. unfold facet_out.
        assert (is_split data snk snk = false) as ->; [|done].
        unfold is_split.
        rewrite (bool_decide_eq_true_2 (snk = snk)) by done.
        by rewrite andb_false_r. }
    rewrite sources_fold_untouched by (intros p _; congruence).
    cbn [fst]. rewrite Hsplit, foldl_app. cbn [foldl].
    rewrite demands_fold_untouched.
    + unfold demand_step at 1. cbn [fst snd].
      replace (Qgt_b d TOLERANCE) with false
        by (symmetry; apply Qgt_b_false; lra).
      apply Qlt_b_true in Hd. rewrite Hd. cbn [fst].
      apply edge_capacity_add_edge_eq.
    + intros p Hp. destruct (Hother p) as [Hp1 Hp2];
        [apply elem_of_app; by right|].
      split.
      * intros [= Heq _]. congruence.
      * intros [= Heq]. by apply (facet_out_inj data snk Hclear) in Heq.
Qed.

Lemma demand_and_surplus_edges_witness :
  edge_capacity (built_graph doubled_belt "B") s_super "B"
    = Some (Finite (0 + 1 + 0)) ∧
  edge_capacity (built_graph doubled_belt "B") "A" t_super
    = Some (Finite (- (0 + - (1) + - 0))).
Proof.
  split.
  - apply (proj1 (demand_and_surplus_edges elements_order doubled_belt "B"
                    (built_graph doubled_belt "B")
                    (built_data elements_order doubled_belt "B")
                    "B" (0 + 1 + 0) eq_refl doubled_belt_builds
                    doubled_belt_names_clear ltac:(right; left))).
    + vm_compute. reflexivity.
    + cbn. intros H. apply list_elem_of_singleton in H. discriminate H.
  - apply (proj2 (demand_and_surplus_edges elements_order doubled_belt "B"
                    (built_graph doubled_belt "B")
                    (built_data elements_order doubled_belt "B")
                    "A" (0 + - (1) + - 0) eq_refl doubled_belt_builds
                    doubled_belt_names_clear ltac:(left))).
    + vm_compute. reflexivity.
    + discriminate.
Defined.

(** * The records of the builder *)

(** X18: the builder records exactly one entry per input edge, in input
    order: the pair of nodes, the lower bound (0 when absent) and the
    transformed edge, which runs from the out-facet of [from] to the
    in-facet of [to]; the facets of a node are [X_in] and [X_out] when the
    node has a cap and is neither the sink nor a source, and the node
    itself otherwise. *)
Theorem original_edges_follow_input (order : set_order) (data : instance)
    (G : DiGraph) (bd : build_data) :
  build_transformed_graph order data = inr (G, bd) →
  ∃ snk, sink_of data = Some snk ∧
    Forall2 (λ e r,
               oe_orig r = (e_from e, e_to e)
               ∧ oe_lo r = default 0 (e_lower e)
               ∧ oe_mapped r = (facet_out data snk (e_from e),
                                facet_in data snk (e_to e)))
            (edges data) (original_edges bd) ∧
    ∀ n, (facet_in data snk n = v_in_of n
          ∧ facet_out data snk n = v_out_of n
          ∧ n ∈ (node_caps data).*1 ∧ n ≠ snk ∧ n ∉ (sources data).*1)
         ∨ (facet_in data snk n = n ∧ facet_out data snk n = n
            ∧ ¬ (n ∈ (node_caps data).*1 ∧ n ≠ snk ∧ n ∉ (sources data).*1)).
Proof.
  intros (snk & Hsink & _ & _ & ->)%build_inv. exists snk. split; [done|].
  split.
  - rewrite original_edges_built. apply Forall2_fmap_r, Forall_Forall2_diag.
    by apply Forall_forall.
  - intros n. unfold facet_in, facet_out.
    destruct (is_split data snk n) eqn:Hs.
    + left. apply is_split_spec in Hs. tauto.
    + right. split; [done|]. split; [done|].
      intros Hn%is_split_spec. congruence.
Qed.

Lemma original_edges_follow_input_witness :
  ∃ snk, sink_of capped_hub = Some snk ∧
    Forall2 (λ e r,
               oe_orig r = (e_from e, e_to e)
               ∧ oe_lo r = default 0 (e_lower e)
               ∧ oe_mapped r = (facet_out capped_hub snk (e_from e),
                                facet_in capped_hub snk (e_to e)))
            (edges capped_hub)
            (original_edges (built_data elements_order capped_hub "T")) ∧
    ∀ n, (facet_in capped_hub snk n = v_in_of n
          ∧ facet_out capped_hub snk n = v_out_of n
          ∧ n ∈ (node_caps capped_hub).*1 ∧ n ≠ snk
          ∧ n ∉ (sources capped_hub).*1)
         ∨ (facet_in capped_hub snk n = n ∧ facet_out capped_hub snk n = n
            ∧ ¬ (n ∈ (node_caps capped_hub).*1 ∧ n ≠ snk
                 ∧ n ∉ (sources capped_hub).*1)).
Proof.
  exact (original_edges_follow_input elements_order capped_hub _ _
           capped_hub_builds).
Defined.
